(** * DICe schema: point scheduling and per-point correlation orchestration

    A shallow embedding of the scheduling and orchestration code of
    [src/core/DICe_Schema.cpp]: the obstruction ("dependency") partitioner
    [Schema::create_obstruction_dist_map], the seed partitioner
    [Schema::create_seed_dist_map], the parameter validation of
    [Schema::set_params], and the per-subset pipeline
    [Schema::generic_correlation_routine] with [record_step] and
    [record_failed_step]. *)

From Stdlib Require Import ZArith List Bool Lia Floats String Sorted.
From stdpp Require Import gmap strings list.
Import ListNotations.

Local Open Scope Z_scope.

(** ** Containers of the C++ code *)

(** [std::set<int_t>]: an ordered, duplicate free collection; iterating it
    visits the elements in increasing order.  It is kept as the list of its
    elements in iteration order. *)
Definition int_set := list Z.

Fixpoint set_insert (x : Z) (s : int_set) : int_set :=
  match s with
  | [] => [x]
  | y :: s' =>
      if x <? y then x :: s
      else if x =? y then s
      else y :: set_insert x s'
  end.

Definition set_erase (x : Z) (s : int_set) : int_set :=
  List.filter (fun y => negb (y =? x)) s.

Definition set_mem (x : Z) (s : int_set) : bool := existsb (Z.eqb x) s.

(** [s.insert(first,last)] and the repeated [insert]/[erase] of a vector. *)
Definition set_insert_all (l : list Z) (s : int_set) : int_set :=
  fold_left (fun acc x => set_insert x acc) l s.

Definition set_erase_all (l : list Z) (s : int_set) : int_set :=
  fold_left (fun acc x => set_erase x acc) l s.

(** Iterators of a [std::set] stay attached to their element when other
    elements are inserted, so an iterator is the element it points to and
    [None] is [end()]. *)
Definition set_begin (s : int_set) : option Z := head s.

Definition set_next (s : int_set) (x : Z) : option Z :=
  head (List.filter (fun y => x <? y) s).

(** [std::map<int_t,std::vector<int_t> >], iterated in key order: the list
    of its entries in that order. *)
Definition obst_map := list (Z * list Z).

Fixpoint map_find (k : Z) (m : obst_map) : option (list Z) :=
  match m with
  | [] => None
  | (k', v) :: m' => if k =? k' then Some v else map_find k m'
  end.

(** A [MultiField_Map] built from per-process element lists: entry [p] is
    the local element list of rank [p]. *)
Definition MultiField_Map := list (list Z).

(** ** Schema::create_obstruction_dist_map *)

(** The sets that the grouping loops update. *)
Record group_state := {
  dependencies : int_set;
  eligible_ids : int_set;
  assigned_to_a_group : int_set
}.

(** Body of the loop over [search_it], for the entry [e]; [d] is [*dep_it].
    On a match the whole entry joins [dependencies], [dep_it] is reset to
    [dependencies.begin()] and the entry is marked as assigned. *)
Definition search_step (acc : group_state * Z) (e : Z * list Z)
  : group_state * Z :=
  let '(st, d) := acc in
  let '(k, blockers) := e in
  if set_mem k (assigned_to_a_group st) then acc
  else
    let match_found := (d =? k) || existsb (Z.eqb d) blockers in
    if match_found then
      let deps := set_insert_all blockers (set_insert k (dependencies st)) in
      ({| dependencies := deps;
          eligible_ids :=
            set_erase_all blockers (set_erase k (eligible_ids st));
          assigned_to_a_group := set_insert k (assigned_to_a_group st) |},
       match set_begin deps with Some b => b | None => d end)
    else acc.

(** The loop over [dep_it]: one full scan of the map per iteration, then
    [++dep_it] from wherever the scan left the iterator. *)
Fixpoint dep_loop (fuel : nat) (m : obst_map) (st : group_state)
  (dep_it : option Z) : option group_state :=
  match dep_it with
  | None => Some st
  | Some d =>
      match fuel with
      | O => None
      | S fuel' =>
          let '(st', d') := fold_left search_step m (st, d) in
          dep_loop fuel' m st' (set_next (dependencies st') d')
      end
  end.

(** State of the loop over [map_it]. *)
Record outer_state := {
  o_eligible : int_set;
  o_assigned : int_set;
  obstruction_groups : list int_set;
  earliest_id_can_appear : list (Z * Z)
}.

Definition greatest_subset_id_among_obst (blockers : list Z) : Z :=
  fold_left (fun g b => if g <? b then b else g) blockers 0.

(** [std::map::insert] keeps an existing entry. *)
Definition earliest_insert (k g : Z) (em : list (Z * Z)) : list (Z * Z) :=
  if existsb (fun e => fst e =? k) em then em else em ++ [(k, g)].

Definition outer_step (fuel : nat) (m : obst_map) (acc : option outer_state)
  (e : Z * list Z) : option outer_state :=
  match acc with
  | None => None
  | Some o =>
      let '(k, blockers) := e in
      let earliest :=
        earliest_insert k (greatest_subset_id_among_obst blockers)
          (earliest_id_can_appear o) in
      if set_mem k (o_assigned o) then
        Some {| o_eligible := o_eligible o; o_assigned := o_assigned o;
                obstruction_groups := obstruction_groups o;
                earliest_id_can_appear := earliest |}
      else
        let deps := set_insert_all blockers (set_insert k []) in
        let st := {| dependencies := deps;
                     eligible_ids :=
                       set_erase_all blockers (set_erase k (o_eligible o));
                     assigned_to_a_group := o_assigned o |} in
        match dep_loop fuel m st (set_begin deps) with
        | None => None
        | Some st' =>
            Some {| o_eligible := eligible_ids st';
                    o_assigned := assigned_to_a_group st';
                    obstruction_groups :=
                      obstruction_groups o ++ [dependencies st'];
                    earliest_id_can_appear := earliest |}
        end
  end.

(** Every id that occurs in the map, as a key or as a blocker. *)
Definition map_ids (m : obst_map) : list Z :=
  flat_map (fun e => fst e :: snd e) m.

(** An iteration of [dep_loop] either marks a new entry as assigned or
    moves [dep_it] one element forward, so this many iterations suffice. *)
Definition dep_loop_fuel (m : obst_map) : nat :=
  (S (length m) * S (S (length (map_ids m))))%nat.

Definition all_ids (data_num_points_ : Z) : int_set :=
  map Z.of_nat (seq 0 (Z.to_nat data_num_points_)).

Definition build_groups (data_num_points_ : Z) (m : obst_map)
  : option outer_state :=
  fold_left (outer_step (dep_loop_fuel m) m) m
    (Some {| o_eligible := all_ids data_num_points_; o_assigned := [];
             obstruction_groups := []; earliest_id_can_appear := [] |}).

(** [local_subset_ids[p].insert(...)], on a vector indexed by rank. *)
Definition local_insert_all (p : nat) (ids : list Z) (local : list int_set)
  : list int_set :=
  match local !! p with
  | Some s => <[p := set_insert_all ids s]> local
  | None => local
  end.

(** The round-robin loops over [obst_group_gid] and [p_id]: the groups are
    handed out in order while [p_id] cycles through the ranks. *)
Fixpoint deal_groups (num_procs : nat) (groups : list int_set) (p_id : nat)
  (local : list int_set) : list int_set :=
  match groups with
  | [] => local
  | g :: rest =>
      deal_groups num_procs rest
        (if (S p_id <? num_procs)%nat then S p_id else O)
        (local_insert_all p_id g local)
  end.

(** The scan for the rank with the fewest subsets; the comparison is [<=],
    so among equally loaded ranks the last one wins. *)
Definition proc_with_fewest_subsets (data_num_points_ : Z)
  (local : list int_set) : nat :=
  fst (fst (fold_left
    (fun '(proc, lowest, i) s =>
       if Z.of_nat (length s) <=? lowest
       then (i, Z.of_nat (length s), S i)
       else (proc, lowest, S i))
    local (O, data_num_points_, O))).

Definition assign_eligible (data_num_points_ : Z) (elig : int_set)
  (local : list int_set) : list int_set :=
  fold_left
    (fun loc id =>
       local_insert_all
         (proc_with_fewest_subsets data_num_points_ loc) [id] loc)
    elig local.

(** The two tests of the ordering passes. *)
Definition has_no_blockers (m : obst_map) (id : Z) : bool :=
  match map_find id m with
  | None => true
  | Some blockers => (length blockers =? 0)%nat
  end.

Definition has_blockers (m : obst_map) (id : Z) : bool :=
  match map_find id m with
  | None => false
  | Some blockers => (0 <? length blockers)%nat
  end.

(** [local_ids] of one rank: first the ids without blockers, then the ids
    with blockers, each pass in set order. *)
Definition order_local_ids (m : obst_map) (s : int_set) : list Z :=
  List.filter (has_no_blockers m) s ++ List.filter (has_blockers m) s.

Definition local_subset_ids (data_num_points_ : Z) (num_procs : nat)
  (m : obst_map) : option (list int_set) :=
  match build_groups data_num_points_ m with
  | None => None
  | Some o =>
      Some (assign_eligible data_num_points_ (o_eligible o)
              (deal_groups num_procs (obstruction_groups o) O
                 (repeat [] num_procs)))
  end.

(** The partitioner.  Without an obstruction map [dist_map_] is left as it
    is; otherwise it is rebuilt from the [local_ids] of every rank (every
    rank runs the same statements and keeps the list of its own rank; on a
    single rank [all_map_] is rebuilt from the same list).  The result is
    [None] only if [dep_loop] ran out of iterations. *)
Definition create_obstruction_dist_map (data_num_points_ : Z)
  (num_procs : nat) (obstructing_subset_ids_ : option obst_map)
  (dist_map_ : MultiField_Map) : option MultiField_Map :=
  match obstructing_subset_ids_ with
  | None => Some dist_map_
  | Some m =>
      match local_subset_ids data_num_points_ num_procs m with
      | None => None
      | Some local => Some (map (order_local_ids m) local)
      end
  end.

(** ** Schema::create_seed_dist_map *)

(** The scan [for(i=data_num_points_-1;i>=0;--i)]; [n] ids remain to be
    visited and the next one is [n-1].  A group is closed when its last id
    carries the seed value [-1]; the group still open when the scan ends is
    not pushed. *)
Fixpoint seed_scan (neighbor_ids : list Z) (n : nat)
  (this_group_gids : list Z) (seed_groupings : list (list Z))
  : list (list Z) :=
  match n with
  | O => seed_groupings
  | S i =>
      let this_group := this_group_gids ++ [Z.of_nat i] in
      if nth i neighbor_ids 0 =? -1
      then seed_scan neighbor_ids i [] (seed_groupings ++ [this_group])
      else seed_scan neighbor_ids i this_group seed_groupings
  end.

Definition seed_groupings (data_num_points_ : Z) (neighbor_ids : list Z)
  : list (list Z) :=
  seed_scan neighbor_ids (Z.to_nat data_num_points_) [] [].

(** The round-robin loops over [group_gid] and [p_id] as rank [proc_id]
    runs them: it reverses and keeps the groups dealt to itself. *)
Fixpoint local_seed_groupings (num_procs proc_id : nat)
  (groups : list (list Z)) (p_id : nat) : list (list Z) :=
  match groups with
  | [] => []
  | g :: rest =>
      let others :=
        local_seed_groupings num_procs proc_id rest
          (if (S p_id <? num_procs)%nat then S p_id else O) in
      if (p_id =? proc_id)%nat then rev g :: others else others
  end.

(** The seed chains of rank [proc_id]. *)
Definition seed_chains (data_num_points_ : Z) (num_procs proc_id : nat)
  (neighbor_ids : list Z) : list (list Z) :=
  local_seed_groupings num_procs proc_id
    (seed_groupings data_num_points_ neighbor_ids) O.

(** [local_subset_gids_grouped_by_roi] of rank [proc_id]. *)
Definition lids_grouped_by_roi (data_num_points_ : Z)
  (num_procs proc_id : nat) (neighbor_ids : list Z) : list Z :=
  concat (seed_chains data_num_points_ num_procs proc_id neighbor_ids).

(** Result of the seed partitioner: the seed map and whether rank 0 printed
    the warning about seeds given together with obstructions. *)
Record seed_result := {
  seed_dist_map_ : MultiField_Map;
  warning_printed : bool
}.

(** The partitioner.  [None] is the failure of
    [assert(neighbor_ids->size()==data_num_points_)]. *)
Definition create_seed_dist_map (data_num_points_ : Z) (num_procs : nat)
  (obstructing_subset_ids_ : option obst_map) (dist_map_ : MultiField_Map)
  (neighbor_ids : option (list Z)) : option seed_result :=
  match neighbor_ids with
  | None => Some {| seed_dist_map_ := dist_map_; warning_printed := false |}
  | Some nbr =>
      match obstructing_subset_ids_ with
      | Some (_ :: _) =>
          Some {| seed_dist_map_ := dist_map_;
                  warning_printed := existsb (fun x => negb (x =? -1)) nbr |}
      | _ =>
          if Z.of_nat (length nbr) =? data_num_points_ then
            Some {| seed_dist_map_ :=
                      map (fun p =>
                             lids_grouped_by_roi data_num_points_ num_procs
                               p nbr)
                        (seq 0 num_procs);
                    warning_printed := false |}
          else None
      end
  end.

(** The two calls of [Schema::initialize] that build the distributed maps,
    starting from the evenly distributed default [dist_map_]. *)
Definition initialize_maps (data_num_points_ : Z) (num_procs : nat)
  (obstructing_subset_ids_ : option obst_map) (default_map : MultiField_Map)
  (neighbor_ids : option (list Z)) : option (MultiField_Map * seed_result) :=
  match create_obstruction_dist_map data_num_points_ num_procs
          obstructing_subset_ids_ default_map with
  | None => None
  | Some dist =>
      match create_seed_dist_map data_num_points_ num_procs
              obstructing_subset_ids_ dist neighbor_ids with
      | None => None
      | Some r => Some (dist, r)
      end
  end.

(** ** Data of the per-subset pipeline *)

(** [scalar_t] is [double]. *)
Definition scalar_t := float.

Definition minus_one : scalar_t := (-1)%float.
Definition zero : scalar_t := 0%float.

(** The enumerators of [DICe.h] that the pipeline names. *)
Inductive Status_Flag :=
  | CORRELATION_SUCCESSFUL
  | INITIALIZE_SUCCESSFUL
  | CORRELATION_FAILED
  | CORRELATION_FAILED_BY_EXCEPTION
  | INITIALIZE_FAILED
  | INITIALIZE_FAILED_BY_EXCEPTION
  | FRAME_SKIPPED
  | FRAME_SKIPPED_DUE_TO_NO_MOTION
  | FRAME_FAILED_DUE_TO_HIGH_GAMMA
  | FRAME_FAILED_DUE_TO_HIGH_PATH_DISTANCE.

Inductive Optimization_Method :=
  | GRADIENT_BASED
  | SIMPLEX
  | GRADIENT_BASED_THEN_SIMPLEX
  | SIMPLEX_THEN_GRADIENT_BASED.

Inductive Initialization_Method :=
  | USE_FIELD_VALUES
  | USE_NEIGHBOR_VALUES
  | USE_NEIGHBOR_VALUES_FIRST_STEP_ONLY
  | USE_PHASE_CORRELATION.

Inductive Projection_Method :=
  | DISPLACEMENT_BASED
  | VELOCITY_BASED.

Inductive Field_Name :=
  | DISPLACEMENT_X
  | DISPLACEMENT_Y
  | ROTATION_Z
  | NORMAL_STRAIN_X
  | NORMAL_STRAIN_Y
  | SHEAR_STRAIN_XY
  | COORDINATE_X
  | COORDINATE_Y
  | SIGMA
  | GAMMA
  | MATCH
  | STATUS_FLAG
  | ITERATIONS
  | NEIGHBOR_ID.

#[global] Instance Status_Flag_eq_dec : EqDecision Status_Flag.
Proof. solve_decision. Defined.
#[global] Instance Optimization_Method_eq_dec : EqDecision Optimization_Method.
Proof. solve_decision. Defined.
#[global] Instance Initialization_Method_eq_dec :
  EqDecision Initialization_Method.
Proof. solve_decision. Defined.
#[global] Instance Projection_Method_eq_dec : EqDecision Projection_Method.
Proof. solve_decision. Defined.
#[global] Instance Field_Name_eq_dec : EqDecision Field_Name.
Proof. solve_decision. Defined.

(** A field holds a [scalar_t].  The status flag and the iteration count
    are stored through a conversion from [int_t]; the stored number is kept
    here as the flag or the integer it was converted from. *)
Inductive field_value :=
  | Scalar (x : scalar_t)
  | Flag (s : Status_Flag)
  | Count (n : Z).

Definition scalar_of (v : field_value) : scalar_t :=
  match v with Scalar x => x | _ => zero end.

(** A [MultiField]: one value per subset id and field name. *)
Definition MultiField := Z -> Field_Name -> field_value.

(** The solution vector [deformation], indexed by field name. *)
Definition deformation_t := Field_Name -> scalar_t.

Definition deformation_set (d : deformation_t) (f : Field_Name) (x : scalar_t)
  : deformation_t :=
  fun g => if bool_decide (g = f) then x else d g.

Record Motion_Window_Params := {
  origin_x_ : Z;
  origin_y_ : Z;
  width_ : Z;
  height_ : Z;
  tol_ : scalar_t;
  use_subset_id_ : Z
}.

(** The members of [Schema] that the pipeline reads or writes.  The slots
    of [opt_initializers_] and [motion_detectors_] are represented by the
    set of ids whose slot is not null. *)
Record Schema := {
  fields_ : MultiField;
  fields_nm1_ : MultiField;
  image_frame_ : Z;
  initialization_method_ : Initialization_Method;
  optimization_method_ : Optimization_Method;
  projection_method_ : Projection_Method;
  initial_gamma_threshold_ : scalar_t;
  final_gamma_threshold_ : scalar_t;
  path_distance_threshold_ : scalar_t;
  phase_cor_u_x_ : scalar_t;
  phase_cor_u_y_ : scalar_t;
  path_file_names_ : gmap Z string;
  skip_solve_flags_ : gmap Z bool;
  motion_window_params_ : gmap Z Motion_Window_Params;
  opt_initializers_ : gset Z;
  motion_detectors_ : gset Z;
  use_subset_evolution_ : bool;
  output_deformed_subset_intensity_images_ : bool;
  output_evolved_subset_images_ : bool
}.

Definition with_fields (f : MultiField) (S : Schema) : Schema :=
  {| fields_ := f; fields_nm1_ := fields_nm1_ S;
     image_frame_ := image_frame_ S;
     initialization_method_ := initialization_method_ S;
     optimization_method_ := optimization_method_ S;
     projection_method_ := projection_method_ S;
     initial_gamma_threshold_ := initial_gamma_threshold_ S;
     final_gamma_threshold_ := final_gamma_threshold_ S;
     path_distance_threshold_ := path_distance_threshold_ S;
     phase_cor_u_x_ := phase_cor_u_x_ S; phase_cor_u_y_ := phase_cor_u_y_ S;
     path_file_names_ := path_file_names_ S;
     skip_solve_flags_ := skip_solve_flags_ S;
     motion_window_params_ := motion_window_params_ S;
     opt_initializers_ := opt_initializers_ S;
     motion_detectors_ := motion_detectors_ S;
     use_subset_evolution_ := use_subset_evolution_ S;
     output_deformed_subset_intensity_images_ :=
       output_deformed_subset_intensity_images_ S;
     output_evolved_subset_images_ := output_evolved_subset_images_ S |}.

Definition with_fields_nm1 (f : MultiField) (S : Schema) : Schema :=
  {| fields_ := fields_ S; fields_nm1_ := f;
     image_frame_ := image_frame_ S;
     initialization_method_ := initialization_method_ S;
     optimization_method_ := optimization_method_ S;
     projection_method_ := projection_method_ S;
     initial_gamma_threshold_ := initial_gamma_threshold_ S;
     final_gamma_threshold_ := final_gamma_threshold_ S;
     path_distance_threshold_ := path_distance_threshold_ S;
     phase_cor_u_x_ := phase_cor_u_x_ S; phase_cor_u_y_ := phase_cor_u_y_ S;
     path_file_names_ := path_file_names_ S;
     skip_solve_flags_ := skip_solve_flags_ S;
     motion_window_params_ := motion_window_params_ S;
     opt_initializers_ := opt_initializers_ S;
     motion_detectors_ := motion_detectors_ S;
     use_subset_evolution_ := use_subset_evolution_ S;
     output_deformed_subset_intensity_images_ :=
       output_deformed_subset_intensity_images_ S;
     output_evolved_subset_images_ := output_evolved_subset_images_ S |}.

Definition with_opt_initializers (i : gset Z) (S : Schema) : Schema :=
  {| fields_ := fields_ S; fields_nm1_ := fields_nm1_ S;
     image_frame_ := image_frame_ S;
     initialization_method_ := initialization_method_ S;
     optimization_method_ := optimization_method_ S;
     projection_method_ := projection_method_ S;
     initial_gamma_threshold_ := initial_gamma_threshold_ S;
     final_gamma_threshold_ := final_gamma_threshold_ S;
     path_distance_threshold_ := path_distance_threshold_ S;
     phase_cor_u_x_ := phase_cor_u_x_ S; phase_cor_u_y_ := phase_cor_u_y_ S;
     path_file_names_ := path_file_names_ S;
     skip_solve_flags_ := skip_solve_flags_ S;
     motion_window_params_ := motion_window_params_ S;
     opt_initializers_ := i;
     motion_detectors_ := motion_detectors_ S;
     use_subset_evolution_ := use_subset_evolution_ S;
     output_deformed_subset_intensity_images_ :=
       output_deformed_subset_intensity_images_ S;
     output_evolved_subset_images_ := output_evolved_subset_images_ S |}.

Definition with_motion_detectors (i : gset Z) (S : Schema) : Schema :=
  {| fields_ := fields_ S; fields_nm1_ := fields_nm1_ S;
     image_frame_ := image_frame_ S;
     initialization_method_ := initialization_method_ S;
     optimization_method_ := optimization_method_ S;
     projection_method_ := projection_method_ S;
     initial_gamma_threshold_ := initial_gamma_threshold_ S;
     final_gamma_threshold_ := final_gamma_threshold_ S;
     path_distance_threshold_ := path_distance_threshold_ S;
     phase_cor_u_x_ := phase_cor_u_x_ S; phase_cor_u_y_ := phase_cor_u_y_ S;
     path_file_names_ := path_file_names_ S;
     skip_solve_flags_ := skip_solve_flags_ S;
     motion_window_params_ := motion_window_params_ S;
     opt_initializers_ := opt_initializers_ S;
     motion_detectors_ := i;
     use_subset_evolution_ := use_subset_evolution_ S;
     output_deformed_subset_intensity_images_ :=
       output_deformed_subset_intensity_images_ S;
     output_evolved_subset_images_ := output_evolved_subset_images_ S |}.

(** [local_field_value(subset_gid,name) = v]. *)
Definition set_field (gid : Z) (name : Field_Name) (v : field_value)
  (S : Schema) : Schema :=
  with_fields
    (fun g f =>
       if bool_decide (g = gid) && bool_decide (f = name) then v
       else fields_ S g f)
    S.

(** [Schema::record_failed_step]. *)
Definition record_failed_step (subset_gid : Z) (status : Status_Flag)
  (num_iterations : Z) (S : Schema) : Schema :=
  set_field subset_gid ITERATIONS (Count num_iterations)
    (set_field subset_gid STATUS_FLAG (Flag status)
       (set_field subset_gid GAMMA (Scalar minus_one)
          (set_field subset_gid MATCH (Scalar minus_one)
             (set_field subset_gid SIGMA (Scalar minus_one) S)))).

(** [Schema::record_step]. *)
Definition record_step (subset_gid : Z) (deformation : deformation_t)
  (sigma match_ gamma : scalar_t) (status : Status_Flag) (num_iterations : Z)
  (S : Schema) : Schema :=
  set_field subset_gid ITERATIONS (Count num_iterations)
    (set_field subset_gid STATUS_FLAG (Flag status)
       (set_field subset_gid GAMMA (Scalar gamma)
          (set_field subset_gid MATCH (Scalar match_)
             (set_field subset_gid SIGMA (Scalar sigma)
                (set_field subset_gid ROTATION_Z
                   (Scalar (deformation ROTATION_Z))
                   (set_field subset_gid SHEAR_STRAIN_XY
                      (Scalar (deformation SHEAR_STRAIN_XY))
                      (set_field subset_gid NORMAL_STRAIN_Y
                         (Scalar (deformation NORMAL_STRAIN_Y))
                         (set_field subset_gid NORMAL_STRAIN_X
                            (Scalar (deformation NORMAL_STRAIN_X))
                            (set_field subset_gid DISPLACEMENT_Y
                               (Scalar (deformation DISPLACEMENT_Y))
                               (set_field subset_gid DISPLACEMENT_X
                                  (Scalar (deformation DISPLACEMENT_X))
                                  S)))))))))).

(** Modelled from the spec: [Schema::save_off_fields], declared outside this
    file; it snapshots the current fields of the subset into the
    previous-frame fields. *)
Definition save_off_fields (subset_gid : Z) (S : Schema) : Schema :=
  with_fields_nm1
    (fun g f => if bool_decide (g = subset_gid) then fields_ S g f
                else fields_nm1_ S g f)
    S.

(** ** Control flow of the pipeline *)

(** Exceptions: [std::logic_error] (with its subclasses), which the
    pipeline's handlers catch, and any other exception class, such as the
    [std::runtime_error] that the routine raises itself. *)
Inductive exn :=
  | std_logic_error
  | std_runtime_error.

#[global] Instance exn_eq_dec : EqDecision exn.
Proof. solve_decision. Defined.

(** How a collaborator call ends. *)
Inductive outcome (A : Type) :=
  | Returns (a : A)
  | Throws (e : exn).
Arguments Returns {A} a.
Arguments Throws {A} e.

(** The [return] statements of the routine. *)
Inductive exit :=
  | Exit_no_motion
  | Exit_failed_step
  | Exit_skip_solve.

(** How a block of statements ends: it runs to its end, executes
    [return], or throws. *)
Inductive completion (A : Type) :=
  | Normal (a : A)
  | Return_ (x : exit)
  | Throw (e : exn).
Arguments Normal {A} a.
Arguments Return_ {A} x.
Arguments Throw {A} e.

(** The collaborator calls, as they are logged. *)
Inductive call_name :=
  | Call_motion_detected
  | Call_new_Path_Initializer
  | Call_initial_guess
  | Call_initialize_from_previous_frame
  | Call_initialize_from_neighbor
  | Call_computeUpdateFast
  | Call_computeUpdateRobust
  | Call_gamma
  | Call_sigma
  | Call_closest_triad
  | Call_turn_on_previously_obstructed_pixels
  | Call_write_tiff.

#[global] Instance call_name_eq_dec : EqDecision call_name.
Proof. solve_decision. Defined.

(** The local variables of [generic_correlation_routine]; the collaborators
    update [deformation] and [num_iterations] through references. *)
Record locals := {
  init_status : Status_Flag;
  corr_status : Status_Flag;
  num_iterations : Z;
  initial_gamma : scalar_t;
  deformation : deformation_t
}.

Definition initial_locals : locals :=
  {| init_status := INITIALIZE_SUCCESSFUL;
     corr_status := CORRELATION_FAILED;
     num_iterations := -1;
     initial_gamma := zero;
     deformation := fun _ => zero |}.

Section Pipeline.

(** The state of the external collaborators (images, objective, subset,
    path initializers, motion detectors), which this file does not define. *)
Variable W : Type.

(** The collaborators' methods.  Each takes the subset id it is bound to
    and the collaborator state; a method with reference parameters returns
    their final values whether it returns or throws. *)
Record Collaborators := {
  motion_test : Z -> W -> outcome bool * W;
  new_Path_Initializer : Z -> string -> W -> outcome unit * W;
  path_initial_guess :
    Z -> deformation_t -> W -> outcome scalar_t * deformation_t * W;
  path_initial_guess_near :
    Z -> deformation_t -> scalar_t -> scalar_t -> scalar_t -> W ->
    outcome scalar_t * deformation_t * W;
  closest_triad :
    Z -> scalar_t -> scalar_t -> scalar_t -> W -> outcome scalar_t * W;
  initialize_from_previous_frame :
    Z -> deformation_t -> W -> outcome Status_Flag * deformation_t * W;
  initialize_from_neighbor :
    Z -> deformation_t -> W -> outcome Status_Flag * deformation_t * W;
  computeUpdateFast :
    Z -> deformation_t -> Z -> W ->
    outcome Status_Flag * deformation_t * Z * W;
  computeUpdateRobust :
    Z -> deformation_t -> Z -> W ->
    outcome Status_Flag * deformation_t * Z * W;
  gamma : Z -> deformation_t -> W -> outcome scalar_t * W;
  sigma : Z -> deformation_t -> W -> outcome scalar_t * W;
  turn_on_previously_obstructed_pixels : Z -> W -> outcome unit * W;
  write_tiff : Z -> bool -> W -> outcome unit * W
}.

Variable C : Collaborators.

(** The machine the routine runs on: the schema, the routine's locals, the
    collaborator state and the log of collaborator calls. *)
Record machine := {
  schema : Schema;
  vars : locals;
  world : W;
  calls : list call_name
}.

Definition M (A : Type) := machine -> completion A * machine.

#[global] Instance M_ret : MRet M := fun A a s => (Normal a, s).

#[global] Instance M_bind : MBind M := fun A B k m s =>
  match m s with
  | (Normal a, s') => k a s'
  | (Return_ x, s') => (Return_ x, s')
  | (Throw e, s') => (Throw e, s')
  end.

Definition return_ {A} (x : exit) : M A := fun s => (Return_ x, s).
Definition throw {A} (e : exn) : M A := fun s => (Throw e, s).

(** [try { body } catch (std::logic_error &err) { handler }]. *)
Definition try_catch_logic_error (body handler : M unit) : M unit :=
  fun s =>
    match body s with
    | (Throw std_logic_error, s') => handler s'
    | r => r
    end.

Definition get_schema : M Schema := fun s => (Normal (schema s), s).
Definition get_vars : M locals := fun s => (Normal (vars s), s).

Definition modify_schema (f : Schema -> Schema) : M unit :=
  fun s => (Normal tt, {| schema := f (schema s); vars := vars s;
                          world := world s; calls := calls s |}).

Definition modify_vars (f : locals -> locals) : M unit :=
  fun s => (Normal tt, {| schema := schema s; vars := f (vars s);
                          world := world s; calls := calls s |}).

Definition set_init_status (x : Status_Flag) (l : locals) : locals :=
  {| init_status := x; corr_status := corr_status l;
     num_iterations := num_iterations l; initial_gamma := initial_gamma l;
     deformation := deformation l |}.
Definition set_corr_status (x : Status_Flag) (l : locals) : locals :=
  {| init_status := init_status l; corr_status := x;
     num_iterations := num_iterations l; initial_gamma := initial_gamma l;
     deformation := deformation l |}.
Definition set_num_iterations (x : Z) (l : locals) : locals :=
  {| init_status := init_status l; corr_status := corr_status l;
     num_iterations := x; initial_gamma := initial_gamma l;
     deformation := deformation l |}.
Definition set_initial_gamma (x : scalar_t) (l : locals) : locals :=
  {| init_status := init_status l; corr_status := corr_status l;
     num_iterations := num_iterations l; initial_gamma := x;
     deformation := deformation l |}.
Definition set_deformation (x : deformation_t) (l : locals) : locals :=
  {| init_status := init_status l; corr_status := corr_status l;
     num_iterations := num_iterations l; initial_gamma := initial_gamma l;
     deformation := x |}.

(** A collaborator call: it is logged, the collaborator state is replaced,
    [store] writes the reference parameters back to the locals, and the
    call then returns its value or throws. *)
Definition call {A R : Type} (name : call_name) (f : W -> outcome A * R * W)
  (store : R -> locals -> locals) : M A :=
  fun s =>
    let '(r, out, w') := f (world s) in
    let s' := {| schema := schema s; vars := store out (vars s);
                 world := w'; calls := calls s ++ [name] |} in
    match r with
    | Returns a => (Normal a, s')
    | Throws e => (Throw e, s')
    end.

(** A call without reference parameters. *)
Definition call0 {A : Type} (name : call_name) (f : W -> outcome A * W)
  : M A :=
  call name (fun w => let '(r, w') := f w in (r, tt, w')) (fun _ l => l).

(** [Schema::motion_detected]. *)
Definition motion_detected (subset_gid : Z) : M bool :=
  S ← get_schema;
  match motion_window_params_ S !! subset_gid with
  | Some mwp =>
      let use_subset_id :=
        if use_subset_id_ mwp =? -1 then subset_gid else use_subset_id_ mwp in
      (if bool_decide (use_subset_id ∈ motion_detectors_ S) then mret tt
       else modify_schema
              (fun S => with_motion_detectors
                          ({[use_subset_id]} ∪ motion_detectors_ S) S));;
      S' ← get_schema;
      (if bool_decide (use_subset_id ∈ motion_detectors_ S') then mret tt
       else throw std_runtime_error);;
      call0 Call_motion_detected (motion_test C use_subset_id)
  | None => mret true
  end.

(** The path initializer of the subset is created on first use; the
    result is [has_path_file] and [global_path_search_required]. *)
Definition setup_path_initializer (subset_gid : Z) : M (bool * bool) :=
  S ← get_schema;
  let has_path_file :=
    bool_decide (is_Some (path_file_names_ S !! subset_gid)) in
  let global_path_search_required :=
    PrimFloat.eqb (scalar_of (fields_ S subset_gid SIGMA)) minus_one
    || (image_frame_ S =? 0) in
  (if bool_decide (subset_gid ∈ opt_initializers_ S) then mret tt
   else
     match path_file_names_ S !! subset_gid with
     | Some path_file_name =>
         call0 Call_new_Path_Initializer
           (new_Path_Initializer C subset_gid path_file_name);;
         modify_schema
           (fun S => with_opt_initializers
                       ({[subset_gid]} ∪ opt_initializers_ S) S)
     | None => mret tt
     end);;
  S' ← get_schema;
  (if negb (bool_decide (subset_gid ∈ opt_initializers_ S')) && has_path_file
   then throw std_runtime_error else mret tt);;
  mret (has_path_file, global_path_search_required).

Definition uses_previous_frame (S : Schema) : bool :=
  bool_decide (initialization_method_ S = USE_FIELD_VALUES)
  || (bool_decide
        (initialization_method_ S = USE_NEIGHBOR_VALUES_FIRST_STEP_ONLY)
      && (0 <? image_frame_ S)).

(** The phase correlation guess written into [deformation]. *)
Definition phase_correlation_guess (subset_gid : Z) (S : Schema)
  (d : deformation_t) : deformation_t :=
  deformation_set
    (deformation_set
       (deformation_set d DISPLACEMENT_X
          (phase_cor_u_x_ S
           + scalar_of (fields_ S subset_gid DISPLACEMENT_X))%float)
       DISPLACEMENT_Y
       (phase_cor_u_y_ S
        + scalar_of (fields_ S subset_gid DISPLACEMENT_Y))%float)
    ROTATION_Z (scalar_of (fields_ S subset_gid ROTATION_Z)).

(** The body of the [try] block of the initial guess. *)
Definition initial_guess (subset_gid : Z)
  (has_path_file global_path_search_required : bool) : M unit :=
  S ← get_schema;
  l ← get_vars;
  if has_path_file then
    if global_path_search_required then
      g ← call Call_initial_guess
            (path_initial_guess C subset_gid (deformation l)) set_deformation;
      modify_vars (set_initial_gamma g)
    else
      let prev_u := scalar_of (fields_ S subset_gid DISPLACEMENT_X) in
      let prev_v := scalar_of (fields_ S subset_gid DISPLACEMENT_Y) in
      let prev_t := scalar_of (fields_ S subset_gid ROTATION_Z) in
      g ← call Call_initial_guess
            (path_initial_guess_near C subset_gid (deformation l)
               prev_u prev_v prev_t) set_deformation;
      modify_vars (set_initial_gamma g)
  else if uses_previous_frame S then
    st ← call Call_initialize_from_previous_frame
           (initialize_from_previous_frame C subset_gid (deformation l))
           set_deformation;
    modify_vars (set_init_status st)
  else if bool_decide (initialization_method_ S = USE_PHASE_CORRELATION) then
    modify_vars
      (fun l => set_deformation
                  (phase_correlation_guess subset_gid S (deformation l)) l)
  else
    st ← call Call_initialize_from_neighbor
           (initialize_from_neighbor C subset_gid (deformation l))
           set_deformation;
    modify_vars (set_init_status st).

(** The initial guess stage: the [try] block and its handler. *)
Definition initial_guess_stage (subset_gid : Z)
  (has_path_file global_path_search_required : bool) : M unit :=
  try_catch_logic_error
    (initial_guess subset_gid has_path_file global_path_search_required)
    (l ← get_vars;
     modify_schema
       (record_failed_step subset_gid INITIALIZE_FAILED_BY_EXCEPTION
          (num_iterations l));;
     return_ Exit_failed_step).

Definition check_initialization (subset_gid : Z) : M unit :=
  l ← get_vars;
  if bool_decide (init_status l = INITIALIZE_FAILED) then
    modify_schema
      (record_failed_step subset_gid (init_status l) (num_iterations l));;
    return_ Exit_failed_step
  else mret tt.

Definition skip_solve (subset_gid : Z) : M unit :=
  S ← get_schema;
  match skip_solve_flags_ S !! subset_gid with
  | Some true =>
      l ← get_vars;
      initial_sigma ← call0 Call_sigma (sigma C subset_gid (deformation l));
      g ← (if PrimFloat.eqb (initial_gamma l) zero
           then call0 Call_gamma (gamma C subset_gid (deformation l))
           else mret (initial_gamma l));
      modify_schema
        (record_step subset_gid (deformation l) initial_sigma zero g
           FRAME_SKIPPED (num_iterations l));;
      return_ Exit_skip_solve
  | _ => mret tt
  end.

Definition initial_gamma_gate (subset_gid : Z) : M unit :=
  S ← get_schema;
  l ← get_vars;
  if negb (PrimFloat.eqb (initial_gamma_threshold_ S) minus_one)
     && PrimFloat.ltb (initial_gamma_threshold_ S) (initial_gamma l)
  then
    modify_schema
      (record_failed_step subset_gid INITIALIZE_FAILED (num_iterations l));;
    return_ Exit_failed_step
  else mret tt.

Definition store_update (out : deformation_t * Z) (l : locals) : locals :=
  set_num_iterations (snd out) (set_deformation (fst out) l).

(** The first of the guarded updates:
    [try{ corr_status = obj->computeUpdateFast(deformation,num_iterations); }]
    with the handler [corr_status = CORRELATION_FAILED_BY_EXCEPTION]. *)
Definition update_fast (subset_gid : Z) : M unit :=
  try_catch_logic_error
    (l ← get_vars;
     st ← call Call_computeUpdateFast
            (fun w =>
               let '(r, d, n, w') :=
                 computeUpdateFast C subset_gid (deformation l)
                   (num_iterations l) w in
               (r, (d, n), w'))
            store_update;
     modify_vars (set_corr_status st))
    (modify_vars (set_corr_status CORRELATION_FAILED_BY_EXCEPTION)).

Definition update_robust (subset_gid : Z) : M unit :=
  try_catch_logic_error
    (l ← get_vars;
     st ← call Call_computeUpdateRobust
            (fun w =>
               let '(r, d, n, w') :=
                 computeUpdateRobust C subset_gid (deformation l)
                   (num_iterations l) w in
               (r, (d, n), w'))
            store_update;
     modify_vars (set_corr_status st))
    (modify_vars (set_corr_status CORRELATION_FAILED_BY_EXCEPTION)).

(** The initial guess is computed again before the second attempt; these
    statements are not inside a [try] block. *)
Definition reinitialize (subset_gid : Z) : M unit :=
  S ← get_schema;
  l ← get_vars;
  if uses_previous_frame S then
    st ← call Call_initialize_from_previous_frame
           (initialize_from_previous_frame C subset_gid (deformation l))
           set_deformation;
    modify_vars (set_init_status st)
  else if bool_decide (initialization_method_ S = USE_PHASE_CORRELATION) then
    modify_vars
      (fun l => set_deformation
                  (phase_correlation_guess subset_gid S (deformation l)) l);;
    modify_vars (set_init_status INITIALIZE_SUCCESSFUL)
  else
    st ← call Call_initialize_from_neighbor
           (initialize_from_neighbor C subset_gid (deformation l))
           set_deformation;
    modify_vars (set_init_status st).

Definition fail_unless_correlated (subset_gid : Z) : M unit :=
  l ← get_vars;
  if bool_decide (corr_status l ≠ CORRELATION_SUCCESSFUL) then
    modify_schema
      (record_failed_step subset_gid (corr_status l) (num_iterations l));;
    return_ Exit_failed_step
  else mret tt.

(** The correlation itself, with the second attempt of the two-stage
    methods. *)
Definition optimize (subset_gid : Z) : M unit :=
  S ← get_schema;
  let method := optimization_method_ S in
  (if bool_decide (method = GRADIENT_BASED)
      || bool_decide (method = GRADIENT_BASED_THEN_SIMPLEX)
   then update_fast subset_gid
   else if bool_decide (method = SIMPLEX)
           || bool_decide (method = SIMPLEX_THEN_GRADIENT_BASED)
   then update_robust subset_gid
   else mret tt);;
  l ← get_vars;
  if bool_decide (corr_status l ≠ CORRELATION_SUCCESSFUL) then
    if bool_decide (method = SIMPLEX) || bool_decide (method = GRADIENT_BASED)
    then
      modify_schema
        (record_failed_step subset_gid (corr_status l) (num_iterations l));;
      return_ Exit_failed_step
    else if bool_decide (method = GRADIENT_BASED_THEN_SIMPLEX) then
      reinitialize subset_gid;;
      update_robust subset_gid;;
      fail_unless_correlated subset_gid
    else if bool_decide (method = SIMPLEX_THEN_GRADIENT_BASED) then
      reinitialize subset_gid;;
      update_fast subset_gid;;
      fail_unless_correlated subset_gid
    else mret tt
  else mret tt.

(** [local_field_value(subset_gid,DISPLACEMENT_X) += phase_cor_u_x_] and the
    same for [DISPLACEMENT_Y]. *)
Definition add_phase_correlation (subset_gid : Z) (S : Schema) : Schema :=
  let S1 :=
    set_field subset_gid DISPLACEMENT_X
      (Scalar (scalar_of (fields_ S subset_gid DISPLACEMENT_X)
               + phase_cor_u_x_ S)%float) S in
  set_field subset_gid DISPLACEMENT_Y
    (Scalar (scalar_of (fields_ S1 subset_gid DISPLACEMENT_Y)
             + phase_cor_u_y_ S1)%float) S1.

(** The test of the final gamma; the result is [gamma] and [sigma]. *)
Definition final_gamma_gate (subset_gid : Z) : M (scalar_t * scalar_t) :=
  l ← get_vars;
  gamma_ ← call0 Call_gamma (gamma C subset_gid (deformation l));
  sigma_ ← call0 Call_sigma (sigma C subset_gid (deformation l));
  S ← get_schema;
  if negb (PrimFloat.eqb (final_gamma_threshold_ S) minus_one)
     && PrimFloat.ltb (final_gamma_threshold_ S) gamma_
  then
    (if bool_decide (initialization_method_ S = USE_PHASE_CORRELATION) then
       modify_schema (add_phase_correlation subset_gid)
     else mret tt);;
    modify_schema
      (record_failed_step subset_gid FRAME_FAILED_DUE_TO_HIGH_GAMMA
         (num_iterations l));;
    return_ Exit_failed_step
  else mret (gamma_, sigma_).

Definition path_distance_gate (subset_gid : Z) (has_path_file : bool)
  : M unit :=
  S ← get_schema;
  l ← get_vars;
  if negb (PrimFloat.eqb (path_distance_threshold_ S) minus_one)
     && has_path_file
  then
    path_distance ← call0 Call_closest_triad
      (closest_triad C subset_gid (deformation l DISPLACEMENT_X)
         (deformation l DISPLACEMENT_Y) (deformation l ROTATION_Z));
    if PrimFloat.ltb (path_distance_threshold_ S) path_distance then
      modify_schema
        (record_failed_step subset_gid FRAME_FAILED_DUE_TO_HIGH_PATH_DISTANCE
           (num_iterations l));;
      return_ Exit_failed_step
    else mret tt
  else mret tt.

(** The successful end of the pass. *)
Definition commit (subset_gid : Z) (gamma_ sigma_ : scalar_t) : M unit :=
  S ← get_schema;
  l ← get_vars;
  (if bool_decide (projection_method_ S = VELOCITY_BASED)
   then modify_schema (save_off_fields subset_gid) else mret tt);;
  modify_schema
    (record_step subset_gid (deformation l) sigma_ zero gamma_
       (init_status l) (num_iterations l));;
  (if use_subset_evolution_ S && (1 <? image_frame_ S)
   then call0 Call_turn_on_previously_obstructed_pixels
          (turn_on_previously_obstructed_pixels C subset_gid)
   else mret tt);;
  (if output_deformed_subset_intensity_images_ S
   then call0 Call_write_tiff (write_tiff C subset_gid true) else mret tt);;
  (if output_evolved_subset_images_ S
   then call0 Call_write_tiff (write_tiff C subset_gid false) else mret tt).

Definition record_no_motion (subset_gid : Z) (S : Schema) : Schema :=
  set_field subset_gid ITERATIONS (Count 0)
    (set_field subset_gid STATUS_FLAG (Flag FRAME_SKIPPED_DUE_TO_NO_MOTION)
       (set_field subset_gid MATCH (Scalar zero) S)).

(** The routine up to the initial guess: the motion test, the path
    initializer and the initial values of the locals. *)
Definition before_initial_guess (subset_gid : Z) : M (bool * bool) :=
  motion ← motion_detected subset_gid;
  if negb motion then
    modify_schema (record_no_motion subset_gid);;
    return_ Exit_no_motion
  else
    r ← setup_path_initializer subset_gid;
    modify_vars (fun _ => initial_locals);;
    mret r.

(** The routine up to the correlation; the result is [has_path_file]. *)
Definition before_optimize (subset_gid : Z) : M bool :=
  '(has_path_file, global_path_search_required) ←
    before_initial_guess subset_gid;
  initial_guess_stage subset_gid has_path_file global_path_search_required;;
  check_initialization subset_gid;;
  skip_solve subset_gid;;
  initial_gamma_gate subset_gid;;
  mret has_path_file.

(** The statements that follow the correlation. *)
Definition after_optimize (subset_gid : Z) (has_path_file : bool) : M unit :=
  '(gamma_, sigma_) ← final_gamma_gate subset_gid;
  path_distance_gate subset_gid has_path_file;;
  commit subset_gid gamma_ sigma_.

(** [Schema::generic_correlation_routine], for the objective bound to
    [subset_gid], which is taken to be local to the rank (the routine
    asserts it). *)
Definition generic_correlation_routine (subset_gid : Z) : M unit :=
  has_path_file ← before_optimize subset_gid;
  optimize subset_gid;;
  after_optimize subset_gid has_path_file.

(** One pass, started from a schema and a collaborator state. *)
Definition start (S : Schema) (w : W) : machine :=
  {| schema := S; vars := initial_locals; world := w; calls := [] |}.

(** The loop of [Schema::execute_correlation] over the local subsets: a
    pass that returns lets the loop go on, a pass that throws ends it. *)
Fixpoint correlate_subsets (ids : list Z) : M unit :=
  match ids with
  | [] => mret tt
  | subset_gid :: rest =>
      fun s =>
        match generic_correlation_routine subset_gid s with
        | (Throw e, s') => (Throw e, s')
        | (_, s') => correlate_subsets rest s'
        end
  end.

End Pipeline.

Arguments schema {W} _.
Arguments vars {W} _.
Arguments world {W} _.
Arguments calls {W} _.
Arguments start {W} S w.
Arguments generic_correlation_routine {W} C subset_gid.
Arguments before_initial_guess {W} C subset_gid.
Arguments before_optimize {W} C subset_gid.
Arguments initial_guess {W} C subset_gid _ _.
Arguments initial_guess_stage {W} C subset_gid _ _.
Arguments reinitialize {W} C subset_gid.
Arguments optimize {W} C subset_gid.
Arguments after_optimize {W} C subset_gid has_path_file.
Arguments correlate_subsets {W} C ids.

(** ** Schema::set_params: validation of the parameter names *)

Inductive Analysis_Type :=
  | LOCAL_DIC
  | GLOBAL_DIC.

(** An entry of a [Teuchos::ParameterList]: a [bool], or a value of
    another type (kept as its printed form). *)
Inductive ParameterEntry :=
  | Entry_bool (b : bool)
  | Entry_other (printed : string).

Definition ParameterList := list (string * ParameterEntry).

Fixpoint getEntry (name : string) (pl : ParameterList)
  : option ParameterEntry :=
  match pl with
  | [] => None
  | (n, e) :: pl' => if String.eqb name n then Some e else getEntry name pl'
  end.

Fixpoint setEntry (name : string) (e : ParameterEntry) (pl : ParameterList)
  : ParameterList :=
  match pl with
  | [] => [(name, e)]
  | (n, e') :: pl' =>
      if String.eqb name n then (n, e) :: pl'
      else (n, e') :: setEntry name e pl'
  end.

(** What [set_params] can throw before it reads the validated list: the
    two [std::invalid_argument] of the routine and the type error of
    [ParameterList::get]. *)
Inductive setup_exception :=
  | Global_DIC_is_not_enabled
  | Invalid_parameter
  | Invalid_parameter_type.

(** [params->get<bool>(name,def)]: the value of the entry; an absent entry
    is first added to the list with the default value, and an entry of
    another type is a type error. *)
Definition get_bool (name : string) (def : bool) (pl : ParameterList)
  : (setup_exception + bool) * ParameterList :=
  match getEntry name pl with
  | None => (inr def, pl ++ [(name, Entry_bool def)])
  | Some (Entry_bool b) => (inr b, pl)
  | Some (Entry_other _) => (inl Invalid_parameter_type, pl)
  end.

(** How the validation part of [set_params] ends: it throws, after
    printing the invalid names, or it goes on to read [diceParams]. *)
Inductive setup_result :=
  | Setup_throws (e : setup_exception) (printed : list string)
  | Setup_continues (analysis_type_ : Analysis_Type)
      (diceParams : ParameterList) (params : option ParameterList).

Section Setup.

(** The tables and names of [DICe.h], which is not part of this file: the
    names of [valid_correlation_params], [valid_post_processor_params], the
    two parameter names read before the validation, and the lists that
    [dice_default_params] and [tracking_default_params] fill in. *)
Variable valid_correlation_params : list string.
Variable valid_post_processor_params : list string.
Variable use_global_dic : string.
Variable use_tracking_default_params : string.
Variable dice_default_params : ParameterList.
Variable tracking_default_params : ParameterList.

(** One of the two loops over a table, for the entry [it]. *)
Definition match_table (it : string * ParameterEntry) (table : list string)
  (acc : ParameterList * bool) : ParameterList * bool :=
  fold_left
    (fun '(diceParams, paramValid) name_ =>
       if String.eqb (fst it) name_
       then (setEntry (fst it) (snd it) diceParams, true)
       else (diceParams, paramValid))
    table acc.

(** Body of the loop over the entries of [params]. *)
Definition validate_entry (acc : ParameterList * bool * list string)
  (it : string * ParameterEntry) : ParameterList * bool * list string :=
  let '(diceParams, allParamsValid, printed) := acc in
  let '(diceParams', paramValid) :=
    match_table it valid_post_processor_params
      (match_table it valid_correlation_params (diceParams, false)) in
  if paramValid then (diceParams', allParamsValid, printed)
  else (diceParams', false, printed ++ [fst it]).

(** [Schema::set_params] up to the end of the validation. *)
Definition set_params (analysis_type_ : Analysis_Type)
  (params : option ParameterList) : setup_result :=
  match params with
  | None =>
      match analysis_type_ with
      | GLOBAL_DIC => Setup_throws Global_DIC_is_not_enabled []
      | LOCAL_DIC => Setup_continues LOCAL_DIC dice_default_params None
      end
  | Some pl =>
      match get_bool use_global_dic false pl with
      | (inl e, _) => Setup_throws e []
      | (inr global, pl1) =>
          match (if global then GLOBAL_DIC else analysis_type_) with
          | GLOBAL_DIC => Setup_throws Global_DIC_is_not_enabled []
          | LOCAL_DIC =>
              match get_bool use_tracking_default_params false pl1 with
              | (inl e, _) => Setup_throws e []
              | (inr use_tracking_defaults, pl2) =>
                  let defaults :=
                    if use_tracking_defaults then tracking_default_params
                    else dice_default_params in
                  let '(diceParams, allParamsValid, printed) :=
                    fold_left validate_entry pl2 (defaults, true, []) in
                  if allParamsValid
                  then Setup_continues LOCAL_DIC diceParams (Some pl2)
                  else Setup_throws Invalid_parameter printed
              end
          end
      end
  end.

End Setup.

(** Whether a name is in one of the two tables. *)
Definition whitelisted (valid_correlation_params valid_post_processor_params
  : list string) (name : string) : Prop :=
  In name valid_correlation_params \/ In name valid_post_processor_params.

(** ** Vocabulary of the statements *)

(** The blockers listed for an id; none when the id has no entry. *)
Definition blockers_of (m : obst_map) (id : Z) : list Z :=
  match map_find id m with
  | Some blockers => blockers
  | None => []
  end.

(** Entries of the map whose key is not yet marked as assigned. *)
Definition unassigned (m : obst_map) (assigned : int_set) : nat :=
  length (List.filter (fun e => negb (set_mem (fst e) assigned)) m).

(** Elements that [dep_it] still has to visit. *)
Definition remaining (deps : int_set) (dep_it : option Z) : nat :=
  match dep_it with
  | None => O
  | Some d => S (length (List.filter (fun y => d <? y) deps))
  end.

(** Invariant of the dependency loop. *)
Definition deps_ok (m : obst_map) (st : group_state) : Prop :=
  StronglySorted Z.lt (dependencies st) /\
  forall x, In x (dependencies st) -> In x (map_ids m).

(** An obstruction map of depth one in which id 0 blocks two subsets:
    subset 1 is blocked by 4, subset 2 by 0 and subset 3 by 4 and 0. *)
Definition shared_blocker_map : obst_map := [(1, [4]); (2, [0]); (3, [4; 0])].

(** The neighbor id stored for an id. *)
Definition neighbor_of (neighbor_ids : list Z) (id : Z) : Z :=
  nth (Z.to_nat id) neighbor_ids 0.

(** No obstruction map is active: there is none, or it is empty. *)
Definition no_obstructions (obstructing_subset_ids_ : option obst_map) : Prop :=
  obstructing_subset_ids_ = None \/ obstructing_subset_ids_ = Some [].





(** Some id at or below [x] is a seed. *)
Definition seed_at_or_below (neighbor_ids : list Z) (n : nat) (x : Z) : Prop :=
  exists s i : nat,
    x = Z.of_nat i /\ (s <= i < n)%nat /\ nth s neighbor_ids 0 = -1.

(** *** Concrete collaborators and schemas for the scenarios *)

(** Collaborators without state: the motion test succeeds, the path
    initializer answers [path_gamma], the objective's initial guesses end
    as [guess] says, the two updates end as [fast] and [robust] say, and
    the final gamma is [final_gamma]. *)
Definition scenario_collaborators (path_gamma : scalar_t)
  (guess fast robust : outcome Status_Flag) (final_gamma : scalar_t)
  : Collaborators unit :=
  {| motion_test := fun _ w => (Returns true, w);
     new_Path_Initializer := fun _ _ w => (Returns tt, w);
     path_initial_guess := fun _ d w => (Returns path_gamma, d, w);
     path_initial_guess_near := fun _ d _ _ _ w => (Returns path_gamma, d, w);
     closest_triad := fun _ _ _ _ w => (Returns zero, w);
     initialize_from_previous_frame := fun _ d w => (guess, d, w);
     initialize_from_neighbor := fun _ d w => (guess, d, w);
     computeUpdateFast := fun _ d n w => (fast, d, n + 1, w);
     computeUpdateRobust := fun _ d n w => (robust, d, n + 1, w);
     gamma := fun _ _ w => (Returns final_gamma, w);
     sigma := fun _ _ w => (Returns zero, w);
     turn_on_previously_obstructed_pixels := fun _ w => (Returns tt, w);
     write_tiff := fun _ _ w => (Returns tt, w) |}.

(** A schema at frame 1 with every field at zero and no side table but
    [path_file_names_]. *)
Definition scenario_schema (init : Initialization_Method)
  (opt : Optimization_Method) (initial_threshold final_threshold : scalar_t)
  (phase_x : scalar_t) (paths : gmap Z string) : Schema :=
  {| fields_ := fun _ f =>
       match f with
       | STATUS_FLAG => Flag INITIALIZE_SUCCESSFUL
       | ITERATIONS => Count 0
       | _ => Scalar zero
       end;
     fields_nm1_ := fun _ _ => Scalar zero;
     image_frame_ := 1;
     initialization_method_ := init;
     optimization_method_ := opt;
     projection_method_ := DISPLACEMENT_BASED;
     initial_gamma_threshold_ := initial_threshold;
     final_gamma_threshold_ := final_threshold;
     path_distance_threshold_ := minus_one;
     phase_cor_u_x_ := phase_x;
     phase_cor_u_y_ := zero;
     path_file_names_ := paths;
     skip_solve_flags_ := ∅;
     motion_window_params_ := ∅;
     opt_initializers_ := ∅;
     motion_detectors_ := ∅;
     use_subset_evolution_ := false;
     output_deformed_subset_intensity_images_ := false;
     output_evolved_subset_images_ := false |}.

(** The numbers of scenario C: the doubles nearest to 0.05 and 0.10. *)
#[warnings="-inexact-float"]
Definition gamma_threshold_0_05 : scalar_t := 0.05%float.
#[warnings="-inexact-float"]
Definition gamma_0_10 : scalar_t := 0.10%float.

(** What a failed pass leaves in the fields: the failed step recorded on
    the fields as they were, or, for a final gamma above its threshold
    under phase correlation, on the fields with the offsets added. *)
Definition failed_pass (gid : Z) (S S' : Schema) : Prop :=
  exists (st : Status_Flag) (n : Z),
    st <> CORRELATION_SUCCESSFUL /\
    ((forall g f,
         fields_ S' g f = fields_ (record_failed_step gid st n S) g f) \/
     (initialization_method_ S = USE_PHASE_CORRELATION /\
      st = FRAME_FAILED_DUE_TO_HIGH_GAMMA /\
      forall g f,
        fields_ S' g f
        = fields_ (record_failed_step gid st n (add_phase_correlation gid S))
            g f)).

(** The schema changed at most in the slots of its lazily created helpers
    (path initializers, motion detectors). *)
Definition helpers_only (S S' : Schema) : Prop :=
  S' = with_opt_initializers (opt_initializers_ S')
         (with_motion_detectors (motion_detectors_ S') S).

(** A block that, when it runs to its end, has changed the schema at most
    in the helper slots. *)
Definition keeps {W A} (m : M W A) : Prop :=
  forall s a s', m s = (Normal a, s') -> helpers_only (schema s) (schema s').

(** A block that, when it returns after a failed step, leaves the fields of
    a failed pass. *)
Definition fails_ok {W A} (gid : Z) (m : M W A) : Prop :=
  forall s s',
    m s = (Return_ Exit_failed_step, s') ->
    failed_pass gid (schema s) (schema s').

(** A collaborator call other than the two optimizer updates. *)
Definition not_an_update (c : call_name) : Prop :=
  c <> Call_computeUpdateFast /\ c <> Call_computeUpdateRobust.

(** A block that makes no optimizer update call, however it ends. *)
Definition no_update_calls {W A} (m : M W A) : Prop :=
  forall s r s',
    m s = (r, s') ->
    exists extra,
      calls s' = calls s ++ extra /\ List.Forall not_an_update extra.

(** The calls that recompute the initial guess before the second attempt:
    none under phase correlation, else one call of the objective. *)
Definition guess_calls (l : list call_name) : Prop :=
  l = [] \/ l = [Call_initialize_from_previous_frame]
  \/ l = [Call_initialize_from_neighbor].

(** The result [r] of a pass over point [gid], started from the schema
    [S]: the routine has returned after recording the failure status [st],
    and the fields of the other points are those of [S]. *)
Definition recorded_failure {W} (gid : Z) (S : Schema)
  (r : completion unit * machine W) (st : Status_Flag) : Prop :=
  fst r = Return_ Exit_failed_step /\
  fields_ (schema (snd r)) gid STATUS_FLAG = Flag st /\
  forall g f, g <> gid -> fields_ (schema (snd r)) g f = fields_ S g f.

(** * Properties *)

(** ** Ordered sets *)

Lemma set_insert_In (x y : Z) (s : int_set) :
  In y (set_insert x s) <-> y = x \/ In y s.
Proof.
  induction s as [|a s IH]; simpl.
  - intuition.
  - destruct (x <? a) eqn:Hlt; simpl; [intuition|].
    destruct (x =? a) eqn:Heq; simpl.
    + apply Z.eqb_eq in Heq. subst. intuition.
    + rewrite IH. intuition.
Qed.

Lemma set_insert_sorted (x : Z) (s : int_set) :
  StronglySorted Z.lt s -> StronglySorted Z.lt (set_insert x s).
Proof.
  induction s as [|a s IH]; simpl; intros Hs.
  - repeat constructor.
  - apply StronglySorted_inv in Hs as [Hs Ha].
    destruct (x <? a) eqn:Hlt.
    + apply Z.ltb_lt in Hlt. constructor.
      * constructor; assumption.
      * constructor; [assumption|].
        apply List.Forall_forall. intros y Hy.
        rewrite List.Forall_forall in Ha. specialize (Ha _ Hy). lia.
    + destruct (x =? a) eqn:Heq.
      * constructor; assumption.
      * apply Z.ltb_ge in Hlt. apply Z.eqb_neq in Heq.
        constructor; [auto|].
        apply List.Forall_forall. intros y Hy.
        apply set_insert_In in Hy as [->|Hy]; [lia|].
        rewrite List.Forall_forall in Ha. auto.
Qed.

Lemma set_insert_all_In (l : list Z) (y : Z) (s : int_set) :
  In y (set_insert_all l s) <-> In y l \/ In y s.
Proof.
  unfold set_insert_all. revert s.
  induction l as [|a l IH]; simpl; intros s.
  - intuition.
  - rewrite IH, set_insert_In. intuition.
Qed.

Lemma set_insert_all_sorted (l : list Z) (s : int_set) :
  StronglySorted Z.lt s -> StronglySorted Z.lt (set_insert_all l s).
Proof.
  unfold set_insert_all. revert s.
  induction l as [|a l IH]; simpl; intros s Hs; [assumption|].
  apply IH, set_insert_sorted, Hs.
Qed.

Lemma sorted_NoDup (s : int_set) : StronglySorted Z.lt s -> List.NoDup s.
Proof.
  induction 1 as [|a s Hs IH Ha]; constructor; [|assumption].
  intros Hin. rewrite List.Forall_forall in Ha. specialize (Ha _ Hin). lia.
Qed.

Lemma set_mem_In (x : Z) (s : int_set) : set_mem x s = true <-> In x s.
Proof.
  unfold set_mem. rewrite existsb_exists. split.
  - intros (y & Hy & Heq). apply Z.eqb_eq in Heq. subst. assumption.
  - intros Hin. exists x. split; [assumption|apply Z.eqb_refl].
Qed.

(** ** The dependency loop ends *)

Lemma filter_length_mono {A} (p q : A -> bool) (l : list A) :
  (forall x, In x l -> p x = true -> q x = true) ->
  (length (List.filter p l) <= length (List.filter q l))%nat.
Proof.
  induction l as [|a l IH]; simpl; intros H; [lia|].
  assert (IH' := IH (fun x Hx => H x (or_intror Hx))).
  destruct (p a) eqn:Hp.
  - rewrite (H a (or_introl eq_refl) Hp). simpl. lia.
  - destruct (q a); simpl; lia.
Qed.

Lemma filter_length_lt {A} (p q : A -> bool) (l : list A) (x : A) :
  (forall y, In y l -> p y = true -> q y = true) ->
  In x l -> p x = false -> q x = true ->
  (length (List.filter p l) < length (List.filter q l))%nat.
Proof.
  induction l as [|a l IH]; simpl; intros H Hin Hp Hq; [contradiction|].
  assert (Hle := filter_length_mono p q l (fun y Hy => H y (or_intror Hy))).
  destruct Hin as [->|Hin].
  - rewrite Hp, Hq. simpl. lia.
  - assert (IH' := IH (fun y Hy => H y (or_intror Hy)) Hin Hp Hq).
    destruct (p a) eqn:Hpa.
    + rewrite (H a (or_introl eq_refl) Hpa). simpl. lia.
    + destruct (q a); simpl; lia.
Qed.

Lemma unassigned_insert_le (m : obst_map) (k : Z) (a : int_set) :
  (unassigned m (set_insert k a) <= unassigned m a)%nat.
Proof.
  apply filter_length_mono. intros e _ He.
  apply negb_true_iff in He. apply negb_true_iff.
  destruct (set_mem (fst e) a) eqn:Hm; [|reflexivity].
  apply set_mem_In in Hm.
  assert (Hin : In (fst e) (set_insert k a)) by (apply set_insert_In; auto).
  apply set_mem_In in Hin. congruence.
Qed.

Lemma unassigned_insert_lt (m : obst_map) (e : Z * list Z) (a : int_set) :
  In e m -> set_mem (fst e) a = false ->
  (unassigned m (set_insert (fst e) a) < unassigned m a)%nat.
Proof.
  intros Hin Hm. apply filter_length_lt with (x := e); try assumption.
  - intros e' _ He'. apply negb_true_iff in He'. apply negb_true_iff.
    destruct (set_mem (fst e') a) eqn:Hm'; [|reflexivity].
    apply set_mem_In in Hm'.
    assert (Hin' : In (fst e') (set_insert (fst e) a))
      by (apply set_insert_In; auto).
    apply set_mem_In in Hin'. congruence.
  - apply negb_false_iff. apply set_mem_In, set_insert_In. auto.
  - rewrite Hm. reflexivity.
Qed.

Lemma map_ids_In (m : obst_map) (e : Z * list Z) (x : Z) :
  In e m -> x = fst e \/ In x (snd e) -> In x (map_ids m).
Proof.
  intros He Hx. unfold map_ids. apply in_flat_map.
  exists e. split; [assumption|]. simpl. intuition.
Qed.

(** One scan either leaves everything as it was or marks a new entry. *)
Lemma search_scan (m l : obst_map) (st : group_state) (d : Z) :
  (forall e, In e l -> In e m) -> deps_ok m st ->
  let r := fold_left search_step l (st, d) in
  deps_ok m (fst r) /\
  (r = (st, d) \/
   (unassigned m (assigned_to_a_group (fst r))
    < unassigned m (assigned_to_a_group st))%nat).
Proof.
  revert st d. induction l as [|e l IH]; intros st d Hl Hok;
    cbn [fold_left].
  - split; [assumption|left; reflexivity].
  - assert (Hstep :
      deps_ok m (fst (search_step (st, d) e)) /\
      (search_step (st, d) e = (st, d) \/
       (unassigned m (assigned_to_a_group (fst (search_step (st, d) e)))
        < unassigned m (assigned_to_a_group st))%nat)).
    { unfold search_step. destruct e as [k bl].
      destruct (set_mem k (assigned_to_a_group st)) eqn:Hm;
        [split; [assumption|left; reflexivity]|].
      destruct ((d =? k) || existsb (Z.eqb d) bl);
        [|split; [assumption|left; reflexivity]].
      simpl. split.
      - destruct Hok as [Hs Hin]. split; simpl.
        + apply set_insert_all_sorted, set_insert_sorted, Hs.
        + intros x Hx. apply set_insert_all_In in Hx as [Hx|Hx].
          * apply (map_ids_In m (k, bl)); [apply Hl; left; reflexivity|].
            right. assumption.
          * apply set_insert_In in Hx as [->|Hx]; [|auto].
            apply (map_ids_In m (k, bl)); [apply Hl; left; reflexivity|].
            left. reflexivity.
      - right. apply (unassigned_insert_lt m (k, bl));
          [apply Hl; left; reflexivity|assumption]. }
    destruct Hstep as [Hok' Hcase].
    destruct (search_step (st, d) e) as [st1 d1] eqn:Hs1. simpl in Hok', Hcase.
    specialize (IH st1 d1 (fun e' He' => Hl e' (or_intror He')) Hok').
    cbv zeta in IH. destruct IH as [Hok2 Hcase2]. split; [assumption|].
    destruct Hcase as [Heq|Hlt].
    + inversion Heq; subst. assumption.
    + right. destruct Hcase2 as [Heq2|Hlt2].
      * rewrite Heq2. simpl. assumption.
      * lia.
Qed.

Lemma set_next_remaining (deps : int_set) (d : Z) :
  (remaining deps (set_next deps d) < remaining deps (Some d))%nat.
Proof.
  unfold set_next, remaining.
  destruct (List.filter (fun y => d <? y) deps) as [|d' rest] eqn:Hf; simpl;
    [lia|].
  assert (Hd' : In d' deps /\ (d <? d') = true).
  { apply (filter_In (fun y => d <? y)). rewrite Hf. left. reflexivity. }
  destruct Hd' as [Hin Hlt]. apply Z.ltb_lt in Hlt.
  apply -> Nat.succ_lt_mono.
  change (S (length rest)) with (length (d' :: rest)).
  rewrite <- Hf. apply filter_length_lt with (x := d').
  - intros y _ Hy. apply Z.ltb_lt in Hy. apply Z.ltb_lt. lia.
  - assumption.
  - apply Z.ltb_irrefl.
  - apply Z.ltb_lt. assumption.
Qed.

Lemma remaining_bound (m : obst_map) (st : group_state) (it : option Z) :
  deps_ok m st ->
  (remaining (dependencies st) it <= S (length (map_ids m)))%nat.
Proof.
  intros [Hs Hin]. destruct it as [d|]; simpl; [|lia].
  apply le_n_S.
  transitivity (length (dependencies st)).
  - apply List.filter_length_le.
  - apply NoDup_incl_length; [apply sorted_NoDup, Hs|exact Hin].
Qed.

Lemma dep_loop_ends (m : obst_map) (fuel : nat) :
  forall (st : group_state) (it : option Z),
    deps_ok m st ->
    (unassigned m (assigned_to_a_group st) * S (S (length (map_ids m)))
     + remaining (dependencies st) it <= fuel)%nat ->
    exists st', dep_loop fuel m st it = Some st'.
Proof.
  induction fuel as [|fuel IH]; intros st it Hok Hfuel.
  - destruct it as [d|]; simpl in *; [lia|]. eauto.
  - destruct it as [d|]; simpl; [|eauto].
    assert (Hscan := search_scan m m st d (fun e He => He) Hok).
    simpl in Hscan. destruct Hscan as [Hok' Hcase].
    destruct (fold_left search_step m (st, d)) as [st1 d1] eqn:Hfold.
    simpl in Hok', Hcase. apply IH; [assumption|].
    destruct Hcase as [Heq|Hlt].
    + inversion Heq; subst.
      assert (Hr := set_next_remaining (dependencies st) d).
      simpl in Hfuel, Hr |- *. lia.
    + assert (Hb := remaining_bound m st1
                      (set_next (dependencies st1) d1) Hok').
      simpl in Hfuel. nia.
Qed.

Lemma unassigned_le (m : obst_map) (a : int_set) :
  (unassigned m a <= length m)%nat.
Proof. apply List.filter_length_le. Qed.

Lemma build_groups_scan (m l : obst_map) (o : outer_state) :
  (forall e, In e l -> In e m) ->
  exists o', fold_left (outer_step (dep_loop_fuel m) m) l (Some o) = Some o'.
Proof.
  revert o. induction l as [|[k bl] l IH]; intros o Hl; cbn [fold_left].
  - eauto.
  - assert (Hl' : forall e, In e l -> In e m)
      by (intros e He; apply Hl; right; exact He).
    unfold outer_step at 2.
    destruct (set_mem k (o_assigned o)); [apply IH, Hl'|].
    set (deps := set_insert_all bl (set_insert k [])).
    set (st := {| dependencies := deps;
                  eligible_ids := set_erase_all bl (set_erase k (o_eligible o));
                  assigned_to_a_group := o_assigned o |}).
    assert (Hok : deps_ok m st).
    { split; simpl.
      - apply set_insert_all_sorted, set_insert_sorted. constructor.
      - intros x Hx. apply set_insert_all_In in Hx as [Hx|Hx].
        + apply (map_ids_In m (k, bl)); [apply Hl; left; reflexivity|].
          right. exact Hx.
        + apply set_insert_In in Hx as [->|[]].
          apply (map_ids_In m (k, bl)); [apply Hl; left; reflexivity|].
          left. reflexivity. }
    destruct (dep_loop_ends m (dep_loop_fuel m) st (set_begin deps) Hok)
      as [st' Hst'].
    { assert (Hu := unassigned_le m (assigned_to_a_group st)).
      assert (Hr := remaining_bound m st (set_begin deps) Hok).
      unfold dep_loop_fuel. simpl dependencies in *. nia. }
    rewrite Hst'. apply IH, Hl'.
Qed.

Lemma build_groups_total (data_num_points_ : Z) (m : obst_map) :
  exists o, build_groups data_num_points_ m = Some o.
Proof. apply build_groups_scan. auto. Qed.

Lemma create_obstruction_dist_map_total (data_num_points_ : Z)
  (num_procs : nat) (m : obst_map) (dist_map_ : MultiField_Map) :
  exists local,
    local_subset_ids data_num_points_ num_procs m = Some local /\
    create_obstruction_dist_map data_num_points_ num_procs (Some m) dist_map_
    = Some (map (order_local_ids m) local).
Proof.
  unfold create_obstruction_dist_map, local_subset_ids.
  destruct (build_groups_total data_num_points_ m) as [o ->]. eauto.
Qed.

(** ** The order inside a local list *)

Lemma has_no_blockers_spec (m : obst_map) (id : Z) :
  has_no_blockers m id = true <-> blockers_of m id = [].
Proof.
  unfold has_no_blockers, blockers_of.
  destruct (map_find id m) as [[|b bl]|]; cbn; split; intros H;
    first [reflexivity | discriminate | congruence
          | (exfalso; apply H; reflexivity)].
Qed.

Lemma has_blockers_spec (m : obst_map) (id : Z) :
  has_blockers m id = true <-> blockers_of m id <> [].
Proof.
  unfold has_blockers, blockers_of.
  destruct (map_find id m) as [[|b bl]|]; cbn; split; intros H;
    first [reflexivity | discriminate | congruence
          | (exfalso; apply H; reflexivity)].
Qed.

Lemma order_local_ids_two_tier (m : obst_map) (s : int_set) (i j : nat)
  (a b : Z) :
  nth_error (order_local_ids m s) i = Some a ->
  nth_error (order_local_ids m s) j = Some b ->
  blockers_of m a = [] -> blockers_of m b <> [] -> (i < j)%nat.
Proof.
  unfold order_local_ids. intros Hi Hj Ha Hb.
  set (free := List.filter (has_no_blockers m) s) in *.
  set (blocked := List.filter (has_blockers m) s) in *.
  assert (Hi' : (i < length free)%nat).
  { destruct (Nat.lt_ge_cases i (length free)) as [H|H]; [exact H|].
    rewrite nth_error_app2 in Hi by exact H.
    apply nth_error_In in Hi. apply filter_In in Hi as [_ Hi].
    apply has_blockers_spec in Hi. contradiction. }
  assert (Hj' : (length free <= j)%nat).
  { destruct (Nat.lt_ge_cases j (length free)) as [H|H]; [|exact H].
    rewrite nth_error_app1 in Hj by exact H.
    apply nth_error_In in Hj. apply filter_In in Hj as [_ Hj].
    apply has_no_blockers_spec in Hj. contradiction. }
  lia.
Qed.

(** C8: the partitioner always produces its local lists, and in each of
    them every id without blockers (no entry in the map, or an entry with
    an empty list) stands before every id that has at least one blocker. *)
Theorem dependency_partitioner_two_tier_order (data_num_points_ : Z)
  (num_procs : nat) (m : obst_map) (dist_map_ : MultiField_Map) :
  exists lists,
    create_obstruction_dist_map data_num_points_ num_procs (Some m) dist_map_
    = Some lists /\
    forall (local_ids : list Z) (i j : nat) (a b : Z),
      In local_ids lists ->
      nth_error local_ids i = Some a ->
      nth_error local_ids j = Some b ->
      blockers_of m a = [] -> blockers_of m b <> [] -> (i < j)%nat.
Proof.
  destruct (create_obstruction_dist_map_total data_num_points_ num_procs m
              dist_map_) as (local & _ & Hmap).
  eexists. split; [exact Hmap|].
  intros local_ids i j a b Hin. apply in_map_iff in Hin as (s & <- & _).
  apply order_local_ids_two_tier.
Qed.

(** C1 (evaluation at the failing input): for five subsets on two ranks and
    the map [shared_blocker_map], the two local lists both contain id 0. *)
Theorem dependency_partitioner_duplicates_shared_blocker :
  create_obstruction_dist_map 5 2 (Some shared_blocker_map) []
  = Some [[0; 4; 1; 3]; [0; 2]].
Proof. vm_compute. reflexivity. Qed.

(** ** The seed partitioner *)


Lemma local_seed_groupings_In (num_procs proc_id : nat) (chain : list Z) :
  forall groups p_id,
    In chain (local_seed_groupings num_procs proc_id groups p_id) ->
    exists g, In g groups /\ chain = rev g.
Proof.
  induction groups as [|g groups IH]; intros p_id Hin;
    cbn [local_seed_groupings] in Hin; [contradiction|].
  destruct (p_id =? proc_id)%nat.
  - destruct Hin as [<-|Hin].
    + exists g. split; [left; reflexivity|reflexivity].
    + destruct (IH _ Hin) as (g' & Hg' & ->). exists g'. split; [right|]; auto.
  - destruct (IH _ Hin) as (g' & Hg' & ->). exists g'. split; [right|]; auto.
Qed.

Lemma local_seed_groupings_dealt (num_procs : nat) (g : list Z) :
  forall groups p_id,
    (p_id < num_procs)%nat -> In g groups ->
    exists proc_id, (proc_id < num_procs)%nat /\
      In (rev g) (local_seed_groupings num_procs proc_id groups p_id).
Proof.
  induction groups as [|g' groups IH]; intros p_id Hp Hin; [contradiction|].
  destruct Hin as [->|Hin].
  - exists p_id. split; [assumption|]. cbn [local_seed_groupings].
    rewrite Nat.eqb_refl. left. reflexivity.
  - set (next := if (S p_id <? num_procs)%nat then S p_id else O).
    assert (Hnext : (next < num_procs)%nat).
    { unfold next. destruct (S p_id <? num_procs)%nat eqn:H.
      - apply Nat.ltb_lt in H. exact H.
      - lia. }
    destruct (IH next Hnext Hin) as (q & Hq & Hin').
    exists q. split; [assumption|]. cbn [local_seed_groupings].
    fold next. destruct (p_id =? q)%nat; [right|]; assumption.
Qed.






Lemma seed_at_or_below_S (neighbor_ids : list Z) (i : nat) (x : Z) :
  seed_at_or_below neighbor_ids (S i) x <->
  seed_at_or_below neighbor_ids i x \/
  (x = Z.of_nat i /\
   exists s : nat, (s <= i)%nat /\ nth s neighbor_ids 0 = -1).
Proof.
  unfold seed_at_or_below. split.
  - intros (s & j & -> & Hj & Hs).
    destruct (Nat.eq_dec j i) as [->|Hne].
    + right. split; [reflexivity|]. exists s. split; [lia|assumption].
    + left. exists s, j. repeat split; [lia|lia|assumption].
  - intros [(s & j & -> & Hj & Hs)|(-> & s & Hs & Hseed)].
    + exists s, j. repeat split; [lia|lia|assumption].
    + exists s, i. repeat split; [lia|lia|assumption].
Qed.

Lemma seed_scan_members (neighbor_ids : list Z) (x : Z) (n : nat) :
  forall this groups,
    In x (concat (seed_scan neighbor_ids n this groups)) <->
    In x (concat groups) \/
    (In x this /\ exists s : nat, (s < n)%nat /\ nth s neighbor_ids 0 = -1) \/
    seed_at_or_below neighbor_ids n x.
Proof.
  induction n as [|i IH]; intros this groups; cbn [seed_scan].
  - split; [auto|]. intros [H|[(_ & s & Hs & _)|(s & j & _ & Hj & _)]];
      [assumption|lia|lia].
  - rewrite seed_at_or_below_S.
    set (P := exists s : nat, (s < i)%nat /\ nth s neighbor_ids 0 = -1).
    set (E1 := exists s : nat, (s < S i)%nat /\ nth s neighbor_ids 0 = -1).
    set (E2 := exists s : nat, (s <= i)%nat /\ nth s neighbor_ids 0 = -1).
    destruct (nth i neighbor_ids 0 =? -1) eqn:Hseed.
    + apply Z.eqb_eq in Hseed.
      assert (H1 : E1) by (exists i; split; [lia|assumption]).
      assert (H2 : E2) by (exists i; split; [lia|assumption]).
      rewrite IH, concat_app, !in_app_iff.
      cbn [concat In]. rewrite app_nil_r, in_app_iff. cbn [In].
      split; intros H; intuition (subst; auto).
    + apply Z.eqb_neq in Hseed.
      assert (H1 : E1 <-> P).
      { split; intros (s & Hs & Hs'); exists s; (split; [|assumption]);
          [|lia].
        destruct (Nat.eq_dec s i) as [->|Hne]; [contradiction|lia]. }
      assert (H2 : E2 <-> P).
      { split; intros (s & Hs & Hs'); exists s; (split; [|assumption]);
          [|lia].
        destruct (Nat.eq_dec s i) as [->|Hne]; [contradiction|lia]. }
      rewrite IH, in_app_iff. cbn [In]. fold P. rewrite H1, H2.
      split; intros H; intuition (subst; auto).
Qed.

Lemma seed_groupings_members (data_num_points_ : Z) (neighbor_ids : list Z)
  (x : Z) :
  In x (concat (seed_groupings data_num_points_ neighbor_ids)) <->
  seed_at_or_below neighbor_ids (Z.to_nat data_num_points_) x.
Proof.
  unfold seed_groupings. rewrite seed_scan_members. cbn [concat In].
  intuition.
Qed.

Lemma lids_grouped_by_roi_members (data_num_points_ : Z)
  (num_procs proc_id : nat) (neighbor_ids : list Z) (x : Z) :
  In x (lids_grouped_by_roi data_num_points_ num_procs proc_id neighbor_ids) ->
  seed_at_or_below neighbor_ids (Z.to_nat data_num_points_) x.
Proof.
  unfold lids_grouped_by_roi. intros Hin.
  apply in_concat in Hin as (chain & Hchain & Hx).
  apply local_seed_groupings_In in Hchain as (g & Hg & ->).
  apply seed_groupings_members. apply in_concat.
  exists g. split; [assumption|]. apply in_rev. assumption.
Qed.

Lemma lids_grouped_by_roi_covers (data_num_points_ : Z) (num_procs : nat)
  (neighbor_ids : list Z) (x : Z) :
  (0 < num_procs)%nat ->
  seed_at_or_below neighbor_ids (Z.to_nat data_num_points_) x ->
  exists proc_id, (proc_id < num_procs)%nat /\
    In x (lids_grouped_by_roi data_num_points_ num_procs proc_id neighbor_ids).
Proof.
  intros Hnp Hx. apply seed_groupings_members in Hx.
  apply in_concat in Hx as (g & Hg & Hx).
  destruct (local_seed_groupings_dealt num_procs g _ O Hnp Hg)
    as (p & Hp & Hin).
  exists p. split; [assumption|]. unfold lids_grouped_by_roi, seed_chains.
  apply in_concat. exists (rev g). split; [assumption|].
  apply in_rev. rewrite rev_involutive. assumption.
Qed.

Lemma create_seed_dist_map_lists (data_num_points_ : Z) (num_procs : nat)
  (obstructing_subset_ids_ : option obst_map) (dist_map_ : MultiField_Map)
  (neighbor_ids : list Z) (r : seed_result) :
  no_obstructions obstructing_subset_ids_ ->
  create_seed_dist_map data_num_points_ num_procs obstructing_subset_ids_
    dist_map_ (Some neighbor_ids) = Some r ->
  Z.of_nat (length neighbor_ids) = data_num_points_ /\
  seed_dist_map_ r =
    map (fun p => lids_grouped_by_roi data_num_points_ num_procs p neighbor_ids)
      (seq 0 num_procs).
Proof.
  unfold create_seed_dist_map. intros [->| ->] H;
    destruct (Z.of_nat (length neighbor_ids) =? data_num_points_) eqn:Hlen;
    try discriminate; apply Z.eqb_eq in Hlen; inversion H; subst; auto.
Qed.

(** C10: with a neighbor-id array and no obstruction map, an id that has
    no seed at or below it is in no seed chain and in no local list of the
    seed map; hence the local lists hold every id only if id 0 is a seed,
    and when id 0 is a seed (and there is at least one rank) they do hold
    every id. *)
Theorem seed_partitioner_omits_ids_below_first_seed (data_num_points_ : Z)
  (num_procs : nat) (obstructing_subset_ids_ : option obst_map)
  (dist_map_ : MultiField_Map) (neighbor_ids : list Z) (r : seed_result) :
  no_obstructions obstructing_subset_ids_ ->
  create_seed_dist_map data_num_points_ num_procs obstructing_subset_ids_
    dist_map_ (Some neighbor_ids) = Some r ->
  (forall x : Z,
      0 <= x ->
      (forall s : Z, 0 <= s <= x -> neighbor_of neighbor_ids s <> -1) ->
      (forall proc_id chain,
          In chain
            (seed_chains data_num_points_ num_procs proc_id neighbor_ids) ->
          ~ In x chain) /\
      (forall local_ids,
          In local_ids (seed_dist_map_ r) -> ~ In x local_ids)) /\
  (0 < data_num_points_ ->
   (forall x : Z,
       0 <= x < data_num_points_ ->
       exists local_ids, In local_ids (seed_dist_map_ r) /\ In x local_ids) ->
   neighbor_of neighbor_ids 0 = -1) /\
  ((0 < num_procs)%nat -> neighbor_of neighbor_ids 0 = -1 ->
   forall x : Z,
     0 <= x < data_num_points_ ->
     exists local_ids, In local_ids (seed_dist_map_ r) /\ In x local_ids).
Proof.
  intros Hobst Hr.
  destruct (create_seed_dist_map_lists _ _ _ _ _ _ Hobst Hr) as [Hlen Hmap].
  assert (Hnone : forall x : Z,
             0 <= x ->
             (forall s : Z, 0 <= s <= x -> neighbor_of neighbor_ids s <> -1) ->
             ~ seed_at_or_below neighbor_ids (Z.to_nat data_num_points_) x).
  { intros x Hx Hno (s & i & -> & Hi & Hs).
    apply (Hno (Z.of_nat s)); [lia|].
    unfold neighbor_of. rewrite Nat2Z.id. exact Hs. }
  split; [|split].
  - intros x Hx Hno. split.
    + intros proc_id chain Hchain Hin.
      apply (Hnone x Hx Hno).
      apply (lids_grouped_by_roi_members _ num_procs proc_id).
      unfold lids_grouped_by_roi. apply in_concat. eauto.
    + intros local_ids Hlocal Hin. rewrite Hmap in Hlocal.
      apply in_map_iff in Hlocal as (p & <- & _).
      apply (Hnone x Hx Hno).
      apply (lids_grouped_by_roi_members _ num_procs p). exact Hin.
  - intros Hpos Hall. destruct (Hall 0) as (local_ids & Hlocal & Hin); [lia|].
    rewrite Hmap in Hlocal. apply in_map_iff in Hlocal as (p & <- & _).
    apply lids_grouped_by_roi_members in Hin as (s & i & Hi & Hsi & Hs).
    assert (s = O) by lia. subst s. exact Hs.
  - intros Hnp Hseed x Hx.
    destruct (lids_grouped_by_roi_covers data_num_points_ num_procs
                neighbor_ids x Hnp) as (p & Hp & Hin).
    { exists O, (Z.to_nat x). repeat split; [lia|lia|lia|exact Hseed]. }
    exists (lids_grouped_by_roi data_num_points_ num_procs p neighbor_ids).
    split; [|exact Hin]. rewrite Hmap. apply in_map_iff.
    exists p. split; [reflexivity|]. apply in_seq. lia.
Qed.

Lemma seed_partitioner_omits_ids_below_first_seed_witness :
  create_seed_dist_map 6 2 None [] (Some [5; -1; 1; -1; 3; 3])
  = Some {| seed_dist_map_ := [[3; 4; 5]; [1; 2]]; warning_printed := false |}
  /\ (forall local_ids, In local_ids [[3; 4; 5]; [1; 2]] -> ~ In 0 local_ids).
Proof.
  split; [vm_compute; reflexivity|].
  assert (Hr : create_seed_dist_map 6 2 None [] (Some [5; -1; 1; -1; 3; 3])
               = Some {| seed_dist_map_ := [[3; 4; 5]; [1; 2]];
                         warning_printed := false |})
    by (vm_compute; reflexivity).
  destruct (seed_partitioner_omits_ids_below_first_seed 6 2 None []
              [5; -1; 1; -1; 3; 3] _ (or_introl eq_refl) Hr) as [Hom _].
  apply (Hom 0); [lia|].
  intros s Hs. assert (s = 0) by lia. subst s. vm_compute. discriminate.
Defined.

(** C7: when a neighbor-id array and a non-empty obstruction map are both
    given, the dependency partitioner produces its map and the seed
    partitioner returns that same map, whatever the neighbor ids are; no
    seed chain enters it. *)
Theorem seed_map_is_dependency_map (data_num_points_ : Z) (num_procs : nat)
  (m : obst_map) (default_map : MultiField_Map) (neighbor_ids : list Z) :
  m <> [] ->
  exists dist_map_ warned,
    create_obstruction_dist_map data_num_points_ num_procs (Some m) default_map
    = Some dist_map_ /\
    create_seed_dist_map data_num_points_ num_procs (Some m) dist_map_
      (Some neighbor_ids)
    = Some {| seed_dist_map_ := dist_map_; warning_printed := warned |} /\
    initialize_maps data_num_points_ num_procs (Some m) default_map
      (Some neighbor_ids)
    = Some (dist_map_,
            {| seed_dist_map_ := dist_map_; warning_printed := warned |}).
Proof.
  intros Hm.
  destruct (create_obstruction_dist_map_total data_num_points_ num_procs m
              default_map) as (local & _ & Hdist).
  exists (map (order_local_ids m) local),
         (existsb (fun x => negb (x =? -1)) neighbor_ids).
  assert (Hseed :
    create_seed_dist_map data_num_points_ num_procs (Some m)
      (map (order_local_ids m) local) (Some neighbor_ids)
    = Some {| seed_dist_map_ := map (order_local_ids m) local;
              warning_printed :=
                existsb (fun x => negb (x =? -1)) neighbor_ids |}).
  { unfold create_seed_dist_map. destruct m; [contradiction|reflexivity]. }
  split; [exact Hdist|]. split; [exact Hseed|].
  unfold initialize_maps. rewrite Hdist, Hseed. reflexivity.
Qed.

Lemma seed_map_is_dependency_map_witness :
  exists dist_map_ warned,
    create_obstruction_dist_map 5 1 (Some shared_blocker_map) []
    = Some dist_map_ /\
    create_seed_dist_map 5 1 (Some shared_blocker_map) dist_map_
      (Some [-1; 0; 1; 2; 3])
    = Some {| seed_dist_map_ := dist_map_; warning_printed := warned |} /\
    initialize_maps 5 1 (Some shared_blocker_map) [] (Some [-1; 0; 1; 2; 3])
    = Some (dist_map_,
            {| seed_dist_map_ := dist_map_; warning_printed := warned |}).
Proof.
  apply (seed_map_is_dependency_map 5 1 shared_blocker_map [] [-1; 0; 1; 2; 3]).
  discriminate.
Defined.

(** ** Validation of the parameter names *)

Lemma name_in_table (name : string) (table : list string) :
  existsb (String.eqb name) table = true <-> In name table.
Proof.
  rewrite existsb_exists. split.
  - intros (n & Hn & Heq). apply String.eqb_eq in Heq. subst. assumption.
  - intros Hin. exists name. split; [assumption|apply String.eqb_refl].
Qed.

Lemma match_table_valid (it : string * ParameterEntry) (table : list string) :
  forall acc,
    snd (match_table it table acc)
    = snd acc || existsb (String.eqb (fst it)) table.
Proof.
  unfold match_table. induction table as [|n table IH]; intros [dp v];
    cbn [fold_left existsb].
  - cbn. rewrite orb_false_r. reflexivity.
  - destruct (String.eqb (fst it) n); rewrite IH; cbn [snd].
    + rewrite orb_true_r. reflexivity.
    + reflexivity.
Qed.

Lemma validate_entries (vc vp : list string) (pl : ParameterList) :
  forall acc,
    let valid := fun it : string * ParameterEntry =>
      existsb (String.eqb (fst it)) vc || existsb (String.eqb (fst it)) vp in
    snd (fst (fold_left (validate_entry vc vp) pl acc))
    = snd (fst acc) && forallb valid pl /\
    snd (fold_left (validate_entry vc vp) pl acc)
    = snd acc ++ map fst (List.filter (fun it => negb (valid it)) pl).
Proof.
  induction pl as [|it pl IH]; intros [[dp all] pr]; cbn [fold_left].
  - cbn. rewrite andb_true_r, app_nil_r. auto.
  - cbv zeta in IH |- *. unfold validate_entry at 2 4.
    assert (Hv := match_table_valid it vp (match_table it vc (dp, false))).
    rewrite (match_table_valid it vc) in Hv. cbn [snd orb] in Hv.
    destruct (match_table it vp (match_table it vc (dp, false)))
      as [dp' v] eqn:Hm.
    cbn [snd] in Hv. subst v.
    cbn [forallb List.filter].
    destruct (existsb (String.eqb (fst it)) vc
              || existsb (String.eqb (fst it)) vp) eqn:Hvalid.
    + destruct (IH (dp', all, pr)) as [H1 H2]. rewrite H1, H2. cbn. auto.
    + destruct (IH (dp', false, pr ++ [fst it])) as [H1 H2].
      rewrite H1, H2. cbn. rewrite ?andb_false_r, <- ?app_assoc. auto.
Qed.

Lemma get_bool_entries (name : string) (def b : bool)
  (pl pl' : ParameterList) :
  get_bool name def pl = (inr b, pl') ->
  pl' = pl \/ pl' = pl ++ [(name, Entry_bool def)].
Proof.
  unfold get_bool. destruct (getEntry name pl) as [[b'|o]|]; intros H;
    inversion H; auto.
Qed.

(** C9: for a parameter list given to the setup, a name outside the two
    tables of valid names makes the setup throw (the invalid-parameter
    error, which prints the name, unless one of the earlier errors of the
    setup is thrown first); and when every given name is in the tables the
    invalid-parameter error is not thrown.  The two names that the setup
    itself reads from the list are names of the tables. *)
Theorem set_params_rejects_unlisted_names
  (valid_correlation_params valid_post_processor_params : list string)
  (use_global_dic use_tracking_default_params : string)
  (dice_default_params tracking_default_params : ParameterList)
  (analysis_type_ : Analysis_Type) (params : ParameterList) :
  whitelisted valid_correlation_params valid_post_processor_params
    use_global_dic ->
  whitelisted valid_correlation_params valid_post_processor_params
    use_tracking_default_params ->
  (forall name,
      In name (map fst params) ->
      ~ whitelisted valid_correlation_params valid_post_processor_params name ->
      exists e printed,
        set_params valid_correlation_params valid_post_processor_params
          use_global_dic use_tracking_default_params dice_default_params
          tracking_default_params analysis_type_ (Some params)
        = Setup_throws e printed /\
        (e = Invalid_parameter -> In name printed)) /\
  ((forall name,
       In name (map fst params) ->
       whitelisted valid_correlation_params valid_post_processor_params name) ->
   forall printed,
     set_params valid_correlation_params valid_post_processor_params
       use_global_dic use_tracking_default_params dice_default_params
       tracking_default_params analysis_type_ (Some params)
     <> Setup_throws Invalid_parameter printed).
Proof.
  intros Hglobal Htracking.
  set (valid := fun it : string * ParameterEntry =>
         existsb (String.eqb (fst it)) valid_correlation_params
         || existsb (String.eqb (fst it)) valid_post_processor_params).
  assert (Hvalid : forall it, valid it = true <->
            whitelisted valid_correlation_params valid_post_processor_params
              (fst it)).
  { intros it. unfold valid, whitelisted.
    rewrite orb_true_iff, !name_in_table. reflexivity. }
  unfold set_params.
  destruct (get_bool use_global_dic false params) as [[e|global] pl1] eqn:Hg1.
  { split.
    - intros name _ _. exists e, []. split; [reflexivity|].
      intros ->. unfold get_bool in Hg1.
      destruct (getEntry use_global_dic params) as [[b|o]|]; inversion Hg1.
    - intros _ printed H. inversion H; subst. unfold get_bool in Hg1.
      destruct (getEntry use_global_dic params) as [[b|o]|]; inversion Hg1. }
  destruct (if global then GLOBAL_DIC else analysis_type_).
  2:{ split.
      - intros name _ _. exists Global_DIC_is_not_enabled, [].
        split; [reflexivity|discriminate].
      - intros _ printed H. discriminate H. }
  destruct (get_bool use_tracking_default_params false pl1)
    as [[e|tracking] pl2] eqn:Hg2.
  { split.
    - intros name _ _. exists e, []. split; [reflexivity|].
      intros ->. unfold get_bool in Hg2.
      destruct (getEntry use_tracking_default_params pl1) as [[b|o]|];
        inversion Hg2.
    - intros _ printed H. inversion H; subst. unfold get_bool in Hg2.
      destruct (getEntry use_tracking_default_params pl1) as [[b|o]|];
        inversion Hg2. }
  apply get_bool_entries in Hg1, Hg2.
  set (defaults := if tracking then tracking_default_params
                   else dice_default_params).
  destruct (validate_entries valid_correlation_params
              valid_post_processor_params pl2 (defaults, true, []))
    as [Hall Hprinted].
  cbv zeta in Hall, Hprinted. fold valid in Hall, Hprinted.
  destruct (fold_left
              (validate_entry valid_correlation_params
                 valid_post_processor_params) pl2 (defaults, true, []))
    as [[diceParams allParamsValid] printed'].
  cbn [fst snd] in Hall, Hprinted. cbn [andb app] in Hall, Hprinted.
  split.
  - intros name Hin Hbad.
    apply in_map_iff in Hin as (it & <- & Hit).
    assert (Hit2 : In it pl2).
    { destruct Hg1 as [->| ->], Hg2 as [->| ->];
        rewrite ?in_app_iff; auto. }
    assert (Hinvalid : valid it = false).
    { destruct (valid it) eqn:Hv; [|reflexivity].
      apply Hvalid in Hv. contradiction. }
    assert (allParamsValid = false) as ->.
    { rewrite Hall. apply not_true_is_false. intros Hf.
      rewrite forallb_forall in Hf. specialize (Hf it Hit2). congruence. }
    exists Invalid_parameter, printed'. split; [reflexivity|].
    intros _. rewrite Hprinted. apply in_map, filter_In.
    split; [assumption|]. unfold valid in Hinvalid. rewrite Hinvalid.
    reflexivity.
  - intros Hnames printed H.
    assert (allParamsValid = true) as Htrue.
    { rewrite Hall. apply forallb_forall. intros it Hit. apply Hvalid.
      assert (Hcases : In it params
                       \/ it = (use_global_dic, Entry_bool false)
                       \/ it = (use_tracking_default_params, Entry_bool false)).
      { destruct Hg1 as [->| ->], Hg2 as [->| ->];
          rewrite ?in_app_iff in Hit; cbn [In] in Hit; intuition. }
      destruct Hcases as [Hp|[->| ->]]; [|assumption|assumption].
      apply Hnames, in_map, Hp. }
    rewrite Htrue in H. discriminate H.
Qed.

Lemma set_params_rejects_unlisted_names_witness :
  exists e printed,
    set_params ["use_global_dic"; "use_tracking_default_params";
                "optimization_method"]%string
      ["post_process_vsg_strain"]%string
      "use_global_dic"%string "use_tracking_default_params"%string [] []
      LOCAL_DIC
      (Some [("optimisation_method"%string, Entry_other "SIMPLEX"%string)])
    = Setup_throws e printed /\
    (e = Invalid_parameter -> In "optimisation_method"%string printed).
Proof.
  apply (set_params_rejects_unlisted_names
           ["use_global_dic"; "use_tracking_default_params";
            "optimization_method"]%string
           ["post_process_vsg_strain"]%string
           "use_global_dic"%string "use_tracking_default_params"%string [] []
           LOCAL_DIC
           [("optimisation_method"%string, Entry_other "SIMPLEX"%string)]).
  - left. simpl. auto.
  - left. simpl. auto.
  - simpl. auto.
  - intros [H|H]; simpl in H; intuition discriminate.
Defined.

(** ** The per-subset pipeline *)

Ltac unfold_monad :=
  unfold mbind, M_bind, mret, M_ret, get_schema, get_vars, modify_schema,
    modify_vars, call0, call, return_, throw, try_catch_logic_error in *.

Ltac exec_step :=
  first
    [ progress simplify_eq/=
    | case_bool_decide
    | case_match ].

Ltac exec := unfold_monad; repeat exec_step.

Lemma bind_eq {W A B} (m : M W A) (k : A -> M W B) (s : machine W) :
  (m ≫= k) s
  = match m s with
    | (Normal a, s') => k a s'
    | (Return_ x, s') => (Return_ x, s')
    | (Throw e, s') => (Throw e, s')
    end.
Proof. reflexivity. Qed.

(** Run the next statement, whose result is given by [H]. *)
Ltac run_with H := rewrite ?bind_eq; rewrite H; cbv beta iota.

Lemma before_initial_guess_normal {W} (C : Collaborators W) (gid : Z)
  (s s1 : machine W) (r : bool * bool) :
  before_initial_guess C gid s = (Normal r, s1) ->
  vars s1 = initial_locals /\
  schema s1 = with_opt_initializers (opt_initializers_ (schema s1))
                (with_motion_detectors (motion_detectors_ (schema s1))
                   (schema s)).
Proof.
  unfold before_initial_guess, motion_detected, setup_path_initializer.
  destruct s as [[] l w c]. intros H. exec.
  all: split; reflexivity.
Qed.

Lemma initial_guess_stage_normal {W} (C : Collaborators W) (gid : Z)
  (hp g : bool) (s1 s2 : machine W) :
  initial_guess_stage C gid hp g s1 = (Normal tt, s2) ->
  schema s2 = schema s1 /\
  num_iterations (vars s2) = num_iterations (vars s1) /\
  corr_status (vars s2) = corr_status (vars s1).
Proof.
  unfold initial_guess_stage, initial_guess.
  destruct s1 as [S l w c]. intros H. exec.
  all: repeat split; reflexivity.
Qed.

Lemma initial_gamma_gate_fails {W} (C : Collaborators W) (gid : Z)
  (S : Schema) (w : W) (hp g : bool) (s1 s2 : machine W) :
  before_initial_guess C gid (start S w) = (Normal (hp, g), s1) ->
  initial_guess_stage C gid hp g s1 = (Normal tt, s2) ->
  init_status (vars s2) <> INITIALIZE_FAILED ->
  skip_solve_flags_ S !! gid <> Some true ->
  PrimFloat.eqb (initial_gamma_threshold_ S) minus_one = false ->
  PrimFloat.ltb (initial_gamma_threshold_ S) (initial_gamma (vars s2)) = true ->
  generic_correlation_routine C gid (start S w)
  = (Return_ Exit_failed_step,
     {| schema := record_failed_step gid INITIALIZE_FAILED (-1) (schema s2);
        vars := vars s2; world := world s2; calls := calls s2 |}).
Proof.
  intros H1 H2 Hinit Hskip Hthr Hgamma.
  destruct (before_initial_guess_normal C gid _ _ _ H1) as [Hvars Hschema].
  destruct (initial_guess_stage_normal C gid _ _ _ _ H2) as (Hs2 & Hn & _).
  rewrite Hvars in Hn. cbn in Hn.
  assert (Hskip2 : skip_solve_flags_ (schema s2) !! gid <> Some true).
  { rewrite Hs2, Hschema. exact Hskip. }
  assert (Hthr2 : initial_gamma_threshold_ (schema s2) = initial_gamma_threshold_ S).
  { rewrite Hs2, Hschema. reflexivity. }
  unfold generic_correlation_routine, before_optimize.
  run_with H1. run_with H2.
  unfold check_initialization, skip_solve, initial_gamma_gate.
  destruct s2 as [S2 l2 w2 c2]. cbn in *.
  unfold_monad. cbv beta iota delta [schema vars world calls].
  rewrite bool_decide_eq_false_2 by exact Hinit.
  destruct (skip_solve_flags_ S2 !! gid) as [[|]|]; [congruence| |];
    cbv beta iota; rewrite Hthr2, Hthr, Hgamma, Hn; reflexivity.
Qed.

(** *** Stage by stage: what a failed pass leaves behind *)

Lemma helpers_only_refl (S : Schema) : helpers_only S S.
Proof. destruct S. reflexivity. Qed.

Lemma helpers_only_trans (S S1 S2 : Schema) :
  helpers_only S S1 -> helpers_only S1 S2 -> helpers_only S S2.
Proof.
  unfold helpers_only. intros H1 H2. rewrite H2 at 1. rewrite H1 at 1.
  reflexivity.
Qed.

Lemma failed_pass_after_helpers (gid : Z) (S S1 S2 : Schema) :
  helpers_only S S1 -> failed_pass gid S1 S2 -> failed_pass gid S S2.
Proof.
  unfold helpers_only. intros H1 (st & n & Hst & H).
  exists st, n. split; [exact Hst|].
  destruct H as [H|(Hinit & Hgamma & H)]; [left|right; split; [|split]].
  - intros g f. rewrite H, H1. reflexivity.
  - rewrite H1 in Hinit. exact Hinit.
  - exact Hgamma.
  - intros g f. rewrite H, H1. reflexivity.
Qed.

Lemma keeps_bind {W A B} (m : M W A) (k : A -> M W B) :
  keeps m -> (forall a, keeps (k a)) -> keeps (m ≫= k).
Proof.
  intros Hm Hk s b s' H. rewrite bind_eq in H.
  destruct (m s) as [[a|x|e] s1] eqn:Hms; try discriminate.
  eapply helpers_only_trans; [eapply Hm, Hms|eapply Hk, H].
Qed.

Lemma fails_ok_bind {W A B} (gid : Z) (m : M W A) (k : A -> M W B) :
  keeps m -> fails_ok gid m -> (forall a, fails_ok gid (k a)) ->
  fails_ok gid (m ≫= k).
Proof.
  intros Hkeep Hm Hk s s' H. rewrite bind_eq in H.
  destruct (m s) as [[a|x|e] s1] eqn:Hms; try discriminate.
  - eapply failed_pass_after_helpers; [eapply Hkeep, Hms|eapply Hk, H].
  - inversion H; subst. eapply Hm, Hms.
Qed.

Lemma record_failed_step_failed_pass (gid : Z) (st : Status_Flag) (n : Z)
  (S S1 : Schema) :
  st <> CORRELATION_SUCCESSFUL -> helpers_only S S1 ->
  failed_pass gid S (record_failed_step gid st n S1).
Proof.
  intros Hst H. eapply failed_pass_after_helpers; [exact H|].
  exists st, n. split; [exact Hst|]. left. reflexivity.
Qed.

(** Closes the goals that symbolic execution of a stage leaves. *)
Ltac stage_done :=
  first
    [ apply helpers_only_refl
    | reflexivity
    | (apply record_failed_step_failed_pass;
       [congruence | first [apply helpers_only_refl | reflexivity]]) ].

Ltac stage H :=
  let s := fresh "s" in
  intros s ? ? H; destruct s as [[] ? ? ?]; exec; try stage_done.

Lemma motion_detected_keeps {W} (C : Collaborators W) (gid : Z) :
  keeps (motion_detected W C gid).
Proof. unfold motion_detected. stage H. Qed.

Lemma motion_detected_fails_ok {W} (C : Collaborators W) (gid : Z) :
  fails_ok gid (motion_detected W C gid).
Proof. unfold motion_detected. intros s s' H. destruct s as [[] ? ? ?]. exec. Qed.

Ltac keeps_tac :=
  let s := fresh "s" in
  let H := fresh "H" in
  intros s ? ? H; destruct s as [[] ? ? ?]; exec; try stage_done.

Ltac fails_tac :=
  let s := fresh "s" in
  let H := fresh "H" in
  intros s ? H; destruct s as [[] ? ? ?]; exec; try stage_done.

Lemma get_schema_keeps {W} : keeps (get_schema W).
Proof. keeps_tac. Qed.
Lemma get_vars_keeps {W} : keeps (get_vars W).
Proof. keeps_tac. Qed.
Lemma modify_vars_keeps {W} (f : locals -> locals) : keeps (modify_vars W f).
Proof. keeps_tac. Qed.
Lemma mret_keeps {W A} (a : A) : keeps (mret a : M W A).
Proof. keeps_tac. Qed.

Lemma get_schema_fails_ok {W} (gid : Z) : fails_ok gid (get_schema W).
Proof. fails_tac. Qed.
Lemma get_vars_fails_ok {W} (gid : Z) : fails_ok gid (get_vars W).
Proof. fails_tac. Qed.
Lemma modify_vars_fails_ok {W} (gid : Z) (f : locals -> locals) :
  fails_ok gid (modify_vars W f).
Proof. fails_tac. Qed.
Lemma mret_fails_ok {W A} (gid : Z) (a : A) : fails_ok gid (mret a : M W A).
Proof. fails_tac. Qed.

Lemma setup_path_initializer_keeps {W} (C : Collaborators W) (gid : Z) :
  keeps (setup_path_initializer W C gid).
Proof. unfold setup_path_initializer. keeps_tac. Qed.

Lemma setup_path_initializer_fails_ok {W} (C : Collaborators W) (gid : Z) :
  fails_ok gid (setup_path_initializer W C gid).
Proof. unfold setup_path_initializer. fails_tac. Qed.

Lemma before_initial_guess_keeps {W} (C : Collaborators W) (gid : Z) :
  keeps (before_initial_guess C gid).
Proof.
  intros s a s' H. apply before_initial_guess_normal in H as [_ H]. exact H.
Qed.

Lemma before_initial_guess_fails_ok {W} (C : Collaborators W) (gid : Z) :
  fails_ok gid (before_initial_guess C gid).
Proof.
  unfold before_initial_guess, motion_detected, setup_path_initializer.
  fails_tac.
Qed.

Lemma initial_guess_stage_keeps {W} (C : Collaborators W) (gid : Z)
  (hp g : bool) : keeps (initial_guess_stage C gid hp g).
Proof. unfold initial_guess_stage, initial_guess. keeps_tac. Qed.

Lemma initial_guess_stage_fails_ok {W} (C : Collaborators W) (gid : Z)
  (hp g : bool) : fails_ok gid (initial_guess_stage C gid hp g).
Proof. unfold initial_guess_stage, initial_guess. fails_tac. Qed.

Lemma check_initialization_keeps {W} (gid : Z) :
  keeps (check_initialization W gid).
Proof. unfold check_initialization. keeps_tac. Qed.

Lemma check_initialization_fails_ok {W} (gid : Z) :
  fails_ok gid (check_initialization W gid).
Proof. unfold check_initialization. fails_tac. Qed.

Lemma skip_solve_keeps {W} (C : Collaborators W) (gid : Z) :
  keeps (skip_solve W C gid).
Proof. unfold skip_solve. keeps_tac. Qed.

Lemma skip_solve_fails_ok {W} (C : Collaborators W) (gid : Z) :
  fails_ok gid (skip_solve W C gid).
Proof. unfold skip_solve. fails_tac. Qed.

Lemma initial_gamma_gate_keeps {W} (gid : Z) :
  keeps (initial_gamma_gate W gid).
Proof. unfold initial_gamma_gate. keeps_tac. Qed.

Lemma initial_gamma_gate_fails_ok {W} (gid : Z) :
  fails_ok gid (initial_gamma_gate W gid).
Proof. unfold initial_gamma_gate. fails_tac. Qed.

Lemma update_fast_keeps {W} (C : Collaborators W) (gid : Z) :
  keeps (update_fast W C gid).
Proof. unfold update_fast. keeps_tac. Qed.

Lemma update_fast_fails_ok {W} (C : Collaborators W) (gid : Z) :
  fails_ok gid (update_fast W C gid).
Proof. unfold update_fast. fails_tac. Qed.

Lemma update_robust_keeps {W} (C : Collaborators W) (gid : Z) :
  keeps (update_robust W C gid).
Proof. unfold update_robust. keeps_tac. Qed.

Lemma update_robust_fails_ok {W} (C : Collaborators W) (gid : Z) :
  fails_ok gid (update_robust W C gid).
Proof. unfold update_robust. fails_tac. Qed.

Lemma reinitialize_keeps {W} (C : Collaborators W) (gid : Z) :
  keeps (reinitialize C gid).
Proof. unfold reinitialize. keeps_tac. Qed.

Lemma reinitialize_fails_ok {W} (C : Collaborators W) (gid : Z) :
  fails_ok gid (reinitialize C gid).
Proof. unfold reinitialize. fails_tac. Qed.

Lemma fail_unless_correlated_keeps {W} (gid : Z) :
  keeps (fail_unless_correlated W gid).
Proof. unfold fail_unless_correlated. keeps_tac. Qed.

Lemma fail_unless_correlated_fails_ok {W} (gid : Z) :
  fails_ok gid (fail_unless_correlated W gid).
Proof. unfold fail_unless_correlated. fails_tac. Qed.

Lemma final_gamma_gate_keeps {W} (C : Collaborators W) (gid : Z) :
  keeps (final_gamma_gate W C gid).
Proof. unfold final_gamma_gate. keeps_tac. Qed.

Lemma final_gamma_gate_fails_ok {W} (C : Collaborators W) (gid : Z) :
  fails_ok gid (final_gamma_gate W C gid).
Proof.
  unfold final_gamma_gate. fails_tac.
  eexists FRAME_FAILED_DUE_TO_HIGH_GAMMA, _.
  split; [discriminate|]. right. repeat split; reflexivity.
Qed.

Lemma path_distance_gate_keeps {W} (C : Collaborators W) (gid : Z)
  (hp : bool) : keeps (path_distance_gate W C gid hp).
Proof. unfold path_distance_gate. keeps_tac. Qed.

Lemma path_distance_gate_fails_ok {W} (C : Collaborators W) (gid : Z)
  (hp : bool) : fails_ok gid (path_distance_gate W C gid hp).
Proof. unfold path_distance_gate. fails_tac. Qed.

Lemma commit_fails_ok {W} (C : Collaborators W) (gid : Z) (g sg : scalar_t) :
  fails_ok gid (commit W C gid g sg).
Proof. unfold commit. fails_tac. Qed.

Lemma record_and_return_keeps {W A} (f : Schema -> Schema) (x : exit) :
  keeps (modify_schema W f ≫= fun _ => return_ W x : M W A).
Proof. intros s a s' H. exec. Qed.

Lemma record_and_return_fails_ok {W A} (gid : Z) (st : Status_Flag) (n : Z) :
  st <> CORRELATION_SUCCESSFUL ->
  fails_ok gid
    (modify_schema W (record_failed_step gid st n)
       ≫= fun _ => return_ W Exit_failed_step : M W A).
Proof.
  intros Hst s s' H. exec.
  apply record_failed_step_failed_pass; [exact Hst|apply helpers_only_refl].
Qed.

Create HintDb pipeline.

#[local] Hint Resolve
  motion_detected_keeps motion_detected_fails_ok
  setup_path_initializer_keeps setup_path_initializer_fails_ok
  before_initial_guess_keeps before_initial_guess_fails_ok
  initial_guess_stage_keeps initial_guess_stage_fails_ok
  check_initialization_keeps check_initialization_fails_ok
  skip_solve_keeps skip_solve_fails_ok
  initial_gamma_gate_keeps initial_gamma_gate_fails_ok
  update_fast_keeps update_fast_fails_ok
  update_robust_keeps update_robust_fails_ok
  reinitialize_keeps reinitialize_fails_ok
  fail_unless_correlated_keeps fail_unless_correlated_fails_ok
  final_gamma_gate_keeps final_gamma_gate_fails_ok
  path_distance_gate_keeps path_distance_gate_fails_ok
  commit_fails_ok record_and_return_keeps record_and_return_fails_ok
  get_schema_keeps get_vars_keeps modify_vars_keeps mret_keeps
  get_schema_fails_ok get_vars_fails_ok modify_vars_fails_ok mret_fails_ok
  : pipeline.

(** Splits a block into its statements and closes each with the lemma of
    its stage. *)
Ltac compose :=
  repeat
    first
      [ solve [auto with pipeline]
      | simple apply keeps_bind
      | simple apply fails_ok_bind
      | match goal with |- forall _, _ => intro end
      | case_bool_decide
      | case_match ].

Lemma optimize_keeps {W} (C : Collaborators W) (gid : Z) :
  keeps (optimize C gid).
Proof. unfold optimize. compose. Qed.

Lemma optimize_fails_ok {W} (C : Collaborators W) (gid : Z) :
  fails_ok gid (optimize C gid).
Proof. unfold optimize. compose. Qed.

Lemma before_optimize_keeps {W} (C : Collaborators W) (gid : Z) :
  keeps (before_optimize C gid).
Proof. unfold before_optimize. compose. Qed.

Lemma before_optimize_fails_ok {W} (C : Collaborators W) (gid : Z) :
  fails_ok gid (before_optimize C gid).
Proof. unfold before_optimize. compose. Qed.

Lemma after_optimize_fails_ok {W} (C : Collaborators W) (gid : Z) (hp : bool) :
  fails_ok gid (after_optimize C gid hp).
Proof. unfold after_optimize. compose. Qed.

Lemma failed_pass_of_routine {W} (C : Collaborators W) (gid : Z)
  (s s' : machine W) :
  generic_correlation_routine C gid s = (Return_ Exit_failed_step, s') ->
  failed_pass gid (schema s) (schema s').
Proof.
  revert s s'. change (fails_ok gid (generic_correlation_routine C gid)).
  unfold generic_correlation_routine.
  apply fails_ok_bind;
    [apply before_optimize_keeps|apply before_optimize_fails_ok|].
  intros hp. apply fails_ok_bind;
    [apply optimize_keeps|apply optimize_fails_ok|].
  intros _. apply after_optimize_fails_ok.
Qed.

(** *** The fields after a recorded step *)

Lemma record_failed_step_field (gid : Z) (st : Status_Flag) (n : Z)
  (S : Schema) (g : Z) (f : Field_Name) :
  fields_ (record_failed_step gid st n S) g f
  = if bool_decide (g = gid) then
      match f with
      | SIGMA | MATCH | GAMMA => Scalar minus_one
      | STATUS_FLAG => Flag st
      | ITERATIONS => Count n
      | _ => fields_ S g f
      end
    else fields_ S g f.
Proof.
  unfold record_failed_step, set_field. cbn.
  destruct (decide (g = gid)) as [->|Hne].
  - rewrite !(bool_decide_eq_true_2 (gid = gid)) by reflexivity.
    destruct f; reflexivity.
  - rewrite !(bool_decide_eq_false_2 (g = gid)) by exact Hne. reflexivity.
Qed.

Lemma add_phase_correlation_field (gid : Z) (S : Schema) (g : Z)
  (f : Field_Name) :
  fields_ (add_phase_correlation gid S) g f
  = if bool_decide (g = gid) then
      match f with
      | DISPLACEMENT_X =>
          Scalar (scalar_of (fields_ S gid DISPLACEMENT_X) + phase_cor_u_x_ S)%float
      | DISPLACEMENT_Y =>
          Scalar (scalar_of (fields_ S gid DISPLACEMENT_Y) + phase_cor_u_y_ S)%float
      | _ => fields_ S g f
      end
    else fields_ S g f.
Proof.
  unfold add_phase_correlation, set_field. cbn.
  rewrite !(bool_decide_eq_true_2 (gid = gid)) by reflexivity. cbn.
  destruct (decide (g = gid)) as [->|Hne].
  - rewrite !(bool_decide_eq_true_2 (gid = gid)) by reflexivity.
    destruct f; reflexivity.
  - rewrite !(bool_decide_eq_false_2 (g = gid)) by exact Hne. reflexivity.
Qed.

Lemma record_step_status (gid : Z) (d : deformation_t) (sg m g : scalar_t)
  (st : Status_Flag) (n : Z) (S : Schema) :
  fields_ (record_step gid d sg m g st n S) gid STATUS_FLAG = Flag st.
Proof.
  unfold record_step, set_field. cbn.
  rewrite !bool_decide_eq_true_2 by reflexivity. reflexivity.
Qed.

(** C3 (as amended): after a pass that ends with a failed step, the
    rotation and strain fields of the point are what they were before the
    pass; so are its displacements, except when the final gamma was above
    its threshold under phase correlation, where the phase correlation
    offsets are added to them; its sigma, match and gamma fields are -1,
    its status and iteration fields are overwritten (with a status other
    than the optimizer's success), and no field of another point changes. *)
Theorem failed_pass_keeps_last_solution {W} (C : Collaborators W) (gid : Z)
  (s s' : machine W) :
  generic_correlation_routine C gid s = (Return_ Exit_failed_step, s') ->
  (forall f,
      In f [ROTATION_Z; NORMAL_STRAIN_X; NORMAL_STRAIN_Y; SHEAR_STRAIN_XY] ->
      fields_ (schema s') gid f = fields_ (schema s) gid f) /\
  ((fields_ (schema s') gid DISPLACEMENT_X
    = fields_ (schema s) gid DISPLACEMENT_X /\
    fields_ (schema s') gid DISPLACEMENT_Y
    = fields_ (schema s) gid DISPLACEMENT_Y) \/
   (initialization_method_ (schema s) = USE_PHASE_CORRELATION /\
    fields_ (schema s') gid STATUS_FLAG = Flag FRAME_FAILED_DUE_TO_HIGH_GAMMA /\
    fields_ (schema s') gid DISPLACEMENT_X
    = Scalar (scalar_of (fields_ (schema s) gid DISPLACEMENT_X)
              + phase_cor_u_x_ (schema s))%float /\
    fields_ (schema s') gid DISPLACEMENT_Y
    = Scalar (scalar_of (fields_ (schema s) gid DISPLACEMENT_Y)
              + phase_cor_u_y_ (schema s))%float)) /\
  fields_ (schema s') gid SIGMA = Scalar minus_one /\
  fields_ (schema s') gid MATCH = Scalar minus_one /\
  fields_ (schema s') gid GAMMA = Scalar minus_one /\
  (exists st n,
      st <> CORRELATION_SUCCESSFUL /\
      fields_ (schema s') gid STATUS_FLAG = Flag st /\
      fields_ (schema s') gid ITERATIONS = Count n) /\
  (forall g f, g <> gid -> fields_ (schema s') g f = fields_ (schema s) g f).
Proof.
  intros H. apply failed_pass_of_routine in H.
  destruct H as (st & n & Hst & [H|(Hinit & -> & H)]).
  - repeat split.
    + intros f Hf. rewrite H, record_failed_step_field.
      rewrite bool_decide_eq_true_2 by reflexivity.
      cbn in Hf. destruct Hf as [<-|[<-|[<-|[<-|[]]]]]; reflexivity.
    + left. rewrite !H, !record_failed_step_field.
      rewrite bool_decide_eq_true_2 by reflexivity. auto.
    + rewrite H, record_failed_step_field.
      rewrite bool_decide_eq_true_2 by reflexivity. reflexivity.
    + rewrite H, record_failed_step_field.
      rewrite bool_decide_eq_true_2 by reflexivity. reflexivity.
    + rewrite H, record_failed_step_field.
      rewrite bool_decide_eq_true_2 by reflexivity. reflexivity.
    + exists st, n. rewrite !H, !record_failed_step_field.
      rewrite bool_decide_eq_true_2 by reflexivity. auto.
    + intros g f Hg. rewrite H, record_failed_step_field.
      rewrite bool_decide_eq_false_2 by exact Hg. reflexivity.
  - repeat split.
    + intros f Hf. rewrite H, record_failed_step_field.
      rewrite add_phase_correlation_field.
      rewrite bool_decide_eq_true_2 by reflexivity.
      cbn in Hf. destruct Hf as [<-|[<-|[<-|[<-|[]]]]]; reflexivity.
    + right. rewrite !H, !record_failed_step_field.
      rewrite !add_phase_correlation_field.
      rewrite bool_decide_eq_true_2 by reflexivity. auto.
    + rewrite H, record_failed_step_field.
      rewrite bool_decide_eq_true_2 by reflexivity. reflexivity.
    + rewrite H, record_failed_step_field.
      rewrite bool_decide_eq_true_2 by reflexivity. reflexivity.
    + rewrite H, record_failed_step_field.
      rewrite bool_decide_eq_true_2 by reflexivity. reflexivity.
    + exists FRAME_FAILED_DUE_TO_HIGH_GAMMA, n.
      rewrite !H, !record_failed_step_field.
      rewrite bool_decide_eq_true_2 by reflexivity. auto.
    + intros g f Hg. rewrite H, record_failed_step_field.
      rewrite add_phase_correlation_field.
      rewrite bool_decide_eq_false_2 by exact Hg. reflexivity.
Qed.

Lemma failed_pass_keeps_last_solution_witness :
  let C := scenario_collaborators zero (Returns INITIALIZE_SUCCESSFUL)
             (Returns CORRELATION_FAILED) (Returns CORRELATION_FAILED)
             zero in
  let s := start (scenario_schema USE_FIELD_VALUES GRADIENT_BASED minus_one
                    minus_one zero ∅) tt in
  fst (generic_correlation_routine C 0 s) = Return_ Exit_failed_step /\
  fields_ (schema (snd (generic_correlation_routine C 0 s))) 0 SIGMA
  = Scalar minus_one.
Proof.
  intros C s. split; [vm_compute; reflexivity|].
  apply (failed_pass_keeps_last_solution C 0 s
           (snd (generic_correlation_routine C 0 s))).
  vm_compute. reflexivity.
Defined.

(** C3 (counterexample): under phase correlation with offset 1 in x, a pass
    whose final gamma 1 exceeds the threshold 0.5 ends with the status of a
    high final gamma and has moved the x displacement of the point. *)
Lemma high_gamma_failure_moves_displacement :
  let C := scenario_collaborators zero (Returns INITIALIZE_SUCCESSFUL)
             (Returns CORRELATION_SUCCESSFUL) (Returns CORRELATION_SUCCESSFUL)
             1%float in
  let S := scenario_schema USE_PHASE_CORRELATION GRADIENT_BASED minus_one
             0.5%float 1%float ∅ in
  let r := generic_correlation_routine C 0 (start S tt) in
  fst r = Return_ Exit_failed_step /\
  fields_ (schema (snd r)) 0 STATUS_FLAG = Flag FRAME_FAILED_DUE_TO_HIGH_GAMMA /\
  fields_ (schema (snd r)) 0 DISPLACEMENT_X <> fields_ S 0 DISPLACEMENT_X.
Proof.
  intros C S r. split; [vm_compute; reflexivity|].
  split; [vm_compute; reflexivity|].
  intros H. apply (f_equal (fun v => PrimFloat.eqb (scalar_of v) zero)) in H.
  vm_compute in H. discriminate H.
Qed.

(** C5 (as amended): take a pass whose motion test and initial guess go
    through, with an initial status other than a failed initialization,
    for a point that is not flagged to skip the solve.  With the initial
    gamma threshold 0.05 and a computed initial gamma 0.10 the pass stops
    at the initial gamma gate: no further collaborator is called, the
    status is that of a failed initialization, sigma, match and gamma are
    -1, and the iteration count is -1. *)
Theorem initial_gamma_gate_records_failed_initialization {W}
  (C : Collaborators W) (gid : Z) (S : Schema) (w : W) (hp g : bool)
  (s1 s2 : machine W) :
  before_initial_guess C gid (start S w) = (Normal (hp, g), s1) ->
  initial_guess_stage C gid hp g s1 = (Normal tt, s2) ->
  init_status (vars s2) <> INITIALIZE_FAILED ->
  skip_solve_flags_ S !! gid <> Some true ->
  initial_gamma_threshold_ S = gamma_threshold_0_05 ->
  initial_gamma (vars s2) = gamma_0_10 ->
  exists s',
    generic_correlation_routine C gid (start S w)
    = (Return_ Exit_failed_step, s') /\
    calls s' = calls s2 /\
    fields_ (schema s') gid STATUS_FLAG = Flag INITIALIZE_FAILED /\
    fields_ (schema s') gid SIGMA = Scalar minus_one /\
    fields_ (schema s') gid MATCH = Scalar minus_one /\
    fields_ (schema s') gid GAMMA = Scalar minus_one /\
    fields_ (schema s') gid ITERATIONS = Count (-1).
Proof.
  intros H1 H2 Hinit Hskip Hthr Hgamma.
  eexists. split.
  - apply (initial_gamma_gate_fails C gid S w hp g s1 s2 H1 H2 Hinit Hskip).
    + rewrite Hthr. reflexivity.
    + rewrite Hthr, Hgamma. reflexivity.
  - cbn [schema calls]. rewrite !record_failed_step_field.
    rewrite bool_decide_eq_true_2 by reflexivity. repeat split.
Qed.

Lemma initial_gamma_gate_records_failed_initialization_witness :
  let C := scenario_collaborators gamma_0_10 (Returns INITIALIZE_SUCCESSFUL)
             (Returns CORRELATION_SUCCESSFUL) (Returns CORRELATION_SUCCESSFUL)
             zero in
  let S := scenario_schema USE_FIELD_VALUES GRADIENT_BASED
             gamma_threshold_0_05 minus_one zero {[ 0 := "path.txt"%string ]} in
  exists s',
    generic_correlation_routine C 0 (start S tt)
    = (Return_ Exit_failed_step, s') /\
    calls s' = [Call_new_Path_Initializer; Call_initial_guess] /\
    fields_ (schema s') 0 STATUS_FLAG = Flag INITIALIZE_FAILED /\
    fields_ (schema s') 0 SIGMA = Scalar minus_one /\
    fields_ (schema s') 0 MATCH = Scalar minus_one /\
    fields_ (schema s') 0 GAMMA = Scalar minus_one /\
    fields_ (schema s') 0 ITERATIONS = Count (-1).
Proof.
  intros C S.
  apply (initial_gamma_gate_records_failed_initialization C 0 S tt true false
           (snd (before_initial_guess C 0 (start S tt)))
           (snd (initial_guess_stage C 0 true false
                   (snd (before_initial_guess C 0 (start S tt)))))).
  - vm_compute. reflexivity.
  - vm_compute. reflexivity.
  - vm_compute. discriminate.
  - vm_compute. discriminate.
  - reflexivity.
  - vm_compute. reflexivity.
Defined.

(** C5 (counterexample): in that scenario the recorded iteration count is
    not 0. *)
Lemma initial_gamma_gate_iteration_count_is_not_zero :
  let C := scenario_collaborators gamma_0_10 (Returns INITIALIZE_SUCCESSFUL)
             (Returns CORRELATION_SUCCESSFUL) (Returns CORRELATION_SUCCESSFUL)
             zero in
  let S := scenario_schema USE_FIELD_VALUES GRADIENT_BASED
             gamma_threshold_0_05 minus_one zero {[ 0 := "path.txt"%string ]} in
  let r := generic_correlation_routine C 0 (start S tt) in
  fst r = Return_ Exit_failed_step /\
  fields_ (schema (snd r)) 0 STATUS_FLAG = Flag INITIALIZE_FAILED /\
  fields_ (schema (snd r)) 0 ITERATIONS <> Count 0.
Proof.
  intros C S r. split; [vm_compute; reflexivity|].
  split; [vm_compute; reflexivity|].
  vm_compute. discriminate.
Qed.

(** *** The collaborator calls of a pass *)

Lemma no_update_calls_bind {W A B} (m : M W A) (k : A -> M W B) :
  no_update_calls m -> (forall a, no_update_calls (k a)) ->
  no_update_calls (m ≫= k).
Proof.
  intros Hm Hk s r s' H. rewrite bind_eq in H.
  destruct (m s) as [[a|x|e] s1] eqn:Hms.
  - destruct (Hm _ _ _ Hms) as (e1 & He1 & HP1).
    destruct (Hk a _ _ _ H) as (e2 & He2 & HP2).
    exists (e1 ++ e2). split.
    + rewrite He2, He1, app_assoc. reflexivity.
    + apply List.Forall_app. auto.
  - inversion H; subst. eapply Hm, Hms.
  - inversion H; subst. eapply Hm, Hms.
Qed.

Ltac calls_done :=
  first
    [ (exists []; split; [symmetry; apply app_nil_r|constructor])
    | (rewrite <- ?app_assoc; eexists; split;
       [reflexivity
       |repeat first [discriminate | constructor]]) ].

Ltac calls_tac :=
  let s := fresh "s" in
  let H := fresh "H" in
  intros s ? ? H; destruct s as [? ? ? ?]; exec; try calls_done.

Lemma before_initial_guess_no_update {W} (C : Collaborators W) (gid : Z) :
  no_update_calls (before_initial_guess C gid).
Proof.
  unfold before_initial_guess, motion_detected, setup_path_initializer.
  calls_tac.
Qed.

Lemma initial_guess_stage_no_update {W} (C : Collaborators W) (gid : Z)
  (hp g : bool) : no_update_calls (initial_guess_stage C gid hp g).
Proof. unfold initial_guess_stage, initial_guess. calls_tac. Qed.

Lemma check_initialization_no_update {W} (gid : Z) :
  no_update_calls (check_initialization W gid).
Proof. unfold check_initialization. calls_tac. Qed.

Lemma skip_solve_no_update {W} (C : Collaborators W) (gid : Z) :
  no_update_calls (skip_solve W C gid).
Proof. unfold skip_solve. calls_tac. Qed.

Lemma initial_gamma_gate_no_update {W} (gid : Z) :
  no_update_calls (initial_gamma_gate W gid).
Proof. unfold initial_gamma_gate. calls_tac. Qed.

Lemma mret_no_update {W A} (a : A) : no_update_calls (mret a : M W A).
Proof. calls_tac. Qed.

Lemma final_gamma_gate_no_update {W} (C : Collaborators W) (gid : Z) :
  no_update_calls (final_gamma_gate W C gid).
Proof. unfold final_gamma_gate. calls_tac. Qed.

Lemma path_distance_gate_no_update {W} (C : Collaborators W) (gid : Z)
  (hp : bool) : no_update_calls (path_distance_gate W C gid hp).
Proof. unfold path_distance_gate. calls_tac. Qed.

Lemma commit_no_update {W} (C : Collaborators W) (gid : Z) (g sg : scalar_t) :
  no_update_calls (commit W C gid g sg).
Proof. unfold commit. calls_tac. Qed.

#[local] Hint Resolve
  before_initial_guess_no_update initial_guess_stage_no_update
  check_initialization_no_update skip_solve_no_update
  initial_gamma_gate_no_update mret_no_update final_gamma_gate_no_update
  path_distance_gate_no_update commit_no_update
  : pipeline.

Ltac compose_calls :=
  repeat
    first
      [ solve [auto with pipeline]
      | simple apply no_update_calls_bind
      | match goal with |- forall _, _ => intro end
      | case_match ].

Lemma before_optimize_no_update {W} (C : Collaborators W) (gid : Z) :
  no_update_calls (before_optimize C gid).
Proof. unfold before_optimize. compose_calls. Qed.

Lemma after_optimize_no_update {W} (C : Collaborators W) (gid : Z) (hp : bool) :
  no_update_calls (after_optimize C gid hp).
Proof. unfold after_optimize. compose_calls. Qed.

Lemma count_no_update (l : list call_name) :
  List.Forall not_an_update l ->
  count_occ call_name_eq_dec l Call_computeUpdateFast = O /\
  count_occ call_name_eq_dec l Call_computeUpdateRobust = O.
Proof.
  intros H. split; apply count_occ_not_In; intros Hin;
    rewrite List.Forall_forall in H; destruct (H _ Hin); congruence.
Qed.

(** *** The stages of the second attempt *)

Lemma update_fast_normal {W} (C : Collaborators W) (gid : Z)
  (s s1 : machine W) :
  update_fast W C gid s = (Normal tt, s1) ->
  schema s1 = schema s /\ init_status (vars s1) = init_status (vars s) /\
  calls s1 = calls s ++ [Call_computeUpdateFast].
Proof.
  unfold update_fast. destruct s as [? ? ? ?]. intros H. exec;
    repeat split; reflexivity.
Qed.

Lemma update_robust_normal {W} (C : Collaborators W) (gid : Z)
  (s s1 : machine W) :
  update_robust W C gid s = (Normal tt, s1) ->
  schema s1 = schema s /\ init_status (vars s1) = init_status (vars s) /\
  calls s1 = calls s ++ [Call_computeUpdateRobust].
Proof.
  unfold update_robust. destruct s as [? ? ? ?]. intros H. exec;
    repeat split; reflexivity.
Qed.

Lemma reinitialize_normal {W} (C : Collaborators W) (gid : Z)
  (s s1 : machine W) :
  reinitialize C gid s = (Normal tt, s1) ->
  schema s1 = schema s /\
  exists guess, calls s1 = calls s ++ guess /\ guess_calls guess.
Proof.
  unfold reinitialize, guess_calls. destruct s as [? ? ? ?]. intros H. exec;
    (split; [reflexivity|]).
  all: first
         [ (exists []; split; [symmetry; apply app_nil_r|auto])
         | (eexists; split; [reflexivity|auto]) ].
Qed.

Lemma after_optimize_normal {W} (C : Collaborators W) (gid : Z) (hp : bool)
  (s s1 : machine W) :
  after_optimize C gid hp s = (Normal tt, s1) ->
  fields_ (schema s1) gid STATUS_FLAG = Flag (init_status (vars s)).
Proof.
  unfold after_optimize, final_gamma_gate, path_distance_gate, commit.
  destruct s as [? ? ? ?]. intros H. exec;
    first [reflexivity | apply record_step_status].
Qed.

(** Decides the tests on the configured method once it is known. *)
Ltac decide_tests :=
  repeat first
    [ rewrite bool_decide_eq_true_2 by (first [reflexivity | assumption])
    | rewrite bool_decide_eq_false_2 by (first [discriminate | congruence]) ];
  cbn [orb andb negb].

Lemma optimize_retry {W} (C : Collaborators W) (gid : Z)
  (s s1 s2 s3 : machine W) :
  optimization_method_ (schema s) = GRADIENT_BASED_THEN_SIMPLEX ->
  update_fast W C gid s = (Normal tt, s1) ->
  corr_status (vars s1) <> CORRELATION_SUCCESSFUL ->
  reinitialize C gid s1 = (Normal tt, s2) ->
  update_robust W C gid s2 = (Normal tt, s3) ->
  corr_status (vars s3) = CORRELATION_SUCCESSFUL ->
  optimize C gid s = (Normal tt, s3).
Proof.
  intros Hm Hf Hfs Hr Hrb Hrs. unfold optimize.
  rewrite bind_eq. unfold get_schema at 1. cbv beta iota. rewrite Hm.
  decide_tests. run_with Hf.
  rewrite bind_eq. unfold get_vars at 1. cbv beta iota.
  decide_tests. run_with Hr. run_with Hrb.
  unfold fail_unless_correlated.
  rewrite bind_eq. unfold get_vars at 1. cbv beta iota. rewrite Hrs.
  decide_tests. reflexivity.
Qed.

(** C4 (as amended): under the fast-then-robust method, take a pass that
    reaches the correlation, whose fast update ends with a failure status
    (returned, or set by the handler of an exception), whose initial guess
    is then recomputed with success, whose robust update converges, and
    whose result passes the final gates.  The pass makes exactly one fast
    and one robust update call, with only the recomputation of the guess
    between them, and the recorded status is the status of the recomputed
    initial guess, [INITIALIZE_SUCCESSFUL]: neither the failure status of
    the fast attempt nor the optimizer's [CORRELATION_SUCCESSFUL]. *)
Theorem fallback_retries_once_and_records_guess_status {W}
  (C : Collaborators W) (gid : Z) (S : Schema) (w : W) (hp : bool)
  (s s1 s2 s3 s4 : machine W) :
  optimization_method_ S = GRADIENT_BASED_THEN_SIMPLEX ->
  before_optimize C gid (start S w) = (Normal hp, s) ->
  update_fast W C gid s = (Normal tt, s1) ->
  corr_status (vars s1) = CORRELATION_FAILED \/
  corr_status (vars s1) = CORRELATION_FAILED_BY_EXCEPTION ->
  reinitialize C gid s1 = (Normal tt, s2) ->
  init_status (vars s2) = INITIALIZE_SUCCESSFUL ->
  update_robust W C gid s2 = (Normal tt, s3) ->
  corr_status (vars s3) = CORRELATION_SUCCESSFUL ->
  after_optimize C gid hp s3 = (Normal tt, s4) ->
  generic_correlation_routine C gid (start S w) = (Normal tt, s4) /\
  count_occ call_name_eq_dec (calls s4) Call_computeUpdateFast = 1%nat /\
  count_occ call_name_eq_dec (calls s4) Call_computeUpdateRobust = 1%nat /\
  (exists before guess after,
      calls s4 = before ++ [Call_computeUpdateFast] ++ guess
                 ++ [Call_computeUpdateRobust] ++ after /\
      guess_calls guess) /\
  fields_ (schema s4) gid STATUS_FLAG = Flag INITIALIZE_SUCCESSFUL /\
  fields_ (schema s4) gid STATUS_FLAG <> Flag (corr_status (vars s1)) /\
  fields_ (schema s4) gid STATUS_FLAG <> Flag (corr_status (vars s3)).
Proof.
  intros Hm H0 Hf Hfs Hr Hi Hrb Hrs Ha.
  assert (Hmethod : optimization_method_ (schema s)
                    = GRADIENT_BASED_THEN_SIMPLEX).
  { apply before_optimize_keeps in H0. cbn in H0. rewrite H0. exact Hm. }
  assert (Hopt : optimize C gid s = (Normal tt, s3)).
  { apply (optimize_retry C gid s s1 s2 s3); try assumption.
    destruct Hfs as [-> | ->]; discriminate. }
  destruct (before_optimize_no_update C gid _ _ _ H0) as (e0 & He0 & HP0).
  destruct (after_optimize_no_update C gid hp _ _ _ Ha) as (e2 & He2 & HP2).
  destruct (update_fast_normal C gid _ _ Hf) as (_ & _ & Hc1).
  destruct (reinitialize_normal C gid _ _ Hr) as (_ & guess & Hc2 & Hguess).
  destruct (update_robust_normal C gid _ _ Hrb) as (_ & Hi3 & Hc3).
  assert (Hcalls : calls s4 = e0 ++ [Call_computeUpdateFast] ++ guess
                              ++ [Call_computeUpdateRobust] ++ e2).
  { rewrite He2, Hc3, Hc2, Hc1, He0. cbn [start calls].
    rewrite <- !app_assoc. reflexivity. }
  assert (HPg : List.Forall not_an_update guess).
  { destruct Hguess as [->|[->| ->]]; repeat first [discriminate | constructor]. }
  destruct (count_no_update _ HP0) as [F0 R0].
  destruct (count_no_update _ HP2) as [F2 R2].
  destruct (count_no_update _ HPg) as [Fg Rg].
  assert (Hstatus : fields_ (schema s4) gid STATUS_FLAG
                    = Flag INITIALIZE_SUCCESSFUL).
  { rewrite (after_optimize_normal C gid hp s3 s4 Ha), Hi3, Hi. reflexivity. }
  repeat split.
  - unfold generic_correlation_routine. run_with H0. run_with Hopt. exact Ha.
  - rewrite Hcalls, !count_occ_app, F0, F2, Fg. reflexivity.
  - rewrite Hcalls, !count_occ_app, R0, R2, Rg. reflexivity.
  - exists e0, guess, e2. auto.
  - exact Hstatus.
  - rewrite Hstatus. destruct Hfs as [-> | ->]; discriminate.
  - rewrite Hstatus, Hrs. discriminate.
Qed.

Lemma fallback_retries_once_and_records_guess_status_witness :
  let C := scenario_collaborators zero (Returns INITIALIZE_SUCCESSFUL)
             (Returns CORRELATION_FAILED) (Returns CORRELATION_SUCCESSFUL)
             zero in
  let S := scenario_schema USE_FIELD_VALUES GRADIENT_BASED_THEN_SIMPLEX
             minus_one minus_one zero ∅ in
  let r := generic_correlation_routine C 0 (start S tt) in
  r = (Normal tt, snd r) /\
  count_occ call_name_eq_dec (calls (snd r)) Call_computeUpdateFast = 1%nat /\
  count_occ call_name_eq_dec (calls (snd r)) Call_computeUpdateRobust = 1%nat.
Proof.
  intros C S r.
  pose (s := snd (before_optimize C 0 (start S tt))).
  pose (s1 := snd (update_fast unit C 0 s)).
  pose (s2 := snd (reinitialize C 0 s1)).
  pose (s3 := snd (update_robust unit C 0 s2)).
  destruct (fallback_retries_once_and_records_guess_status C 0 S tt false
              s s1 s2 s3 (snd r)) as (H1 & H2 & H3 & _).
  - reflexivity.
  - vm_compute. reflexivity.
  - vm_compute. reflexivity.
  - left. vm_compute. reflexivity.
  - vm_compute. reflexivity.
  - vm_compute. reflexivity.
  - vm_compute. reflexivity.
  - vm_compute. reflexivity.
  - vm_compute. reflexivity.
  - exact (conj H1 (conj H2 H3)).
Defined.

(** C4 (counterexample): the fast update fails, the robust update returns
    [CORRELATION_SUCCESSFUL] and the pass is committed, yet the recorded
    status is not the status that the robust update returned. *)
Lemma recorded_status_is_not_the_robust_status :
  let C := scenario_collaborators zero (Returns INITIALIZE_SUCCESSFUL)
             (Returns CORRELATION_FAILED) (Returns CORRELATION_SUCCESSFUL)
             zero in
  let S := scenario_schema USE_FIELD_VALUES GRADIENT_BASED_THEN_SIMPLEX
             minus_one minus_one zero ∅ in
  let r := generic_correlation_routine C 0 (start S tt) in
  fst r = Normal tt /\
  corr_status (vars (snd r)) = CORRELATION_SUCCESSFUL /\
  fields_ (schema (snd r)) 0 STATUS_FLAG = Flag INITIALIZE_SUCCESSFUL /\
  fields_ (schema (snd r)) 0 STATUS_FLAG <> Flag (corr_status (vars (snd r))).
Proof.
  intros C S r. repeat split; try (vm_compute; reflexivity).
  vm_compute. discriminate.
Qed.

(** *** Exceptions inside a pass *)

Lemma initial_guess_throws {W} (C : Collaborators W) (gid : Z) (hp g : bool)
  (e : exn) (s1 s2 : machine W) :
  initial_guess C gid hp g s1 = (Throw e, s2) ->
  schema s2 = schema s1 /\
  num_iterations (vars s2) = num_iterations (vars s1).
Proof.
  unfold initial_guess. destruct s1 as [? ? ? ?]. intros H. exec;
    split; reflexivity.
Qed.

Lemma update_fast_catches {W} (C : Collaborators W) (gid : Z) (s : machine W)
  (d : deformation_t) (n : Z) (w' : W) :
  computeUpdateFast W C gid (deformation (vars s)) (num_iterations (vars s))
    (world s) = (Throws std_logic_error, d, n, w') ->
  update_fast W C gid s
  = (Normal tt,
     {| schema := schema s;
        vars := set_corr_status CORRELATION_FAILED_BY_EXCEPTION
                  (store_update (d, n) (vars s));
        world := w'; calls := calls s ++ [Call_computeUpdateFast] |}).
Proof.
  intros H. unfold update_fast. unfold_monad.
  cbv beta iota delta [schema vars world calls]. destruct s as [? ? ? ?].
  cbn in H |- *. rewrite H. reflexivity.
Qed.

Lemma update_robust_catches {W} (C : Collaborators W) (gid : Z)
  (s : machine W) (d : deformation_t) (n : Z) (w' : W) :
  computeUpdateRobust W C gid (deformation (vars s)) (num_iterations (vars s))
    (world s) = (Throws std_logic_error, d, n, w') ->
  update_robust W C gid s
  = (Normal tt,
     {| schema := schema s;
        vars := set_corr_status CORRELATION_FAILED_BY_EXCEPTION
                  (store_update (d, n) (vars s));
        world := w'; calls := calls s ++ [Call_computeUpdateRobust] |}).
Proof.
  intros H. unfold update_robust. unfold_monad.
  cbv beta iota delta [schema vars world calls]. destruct s as [? ? ? ?].
  cbn in H |- *. rewrite H. reflexivity.
Qed.

(** The step recorded when the last attempt has not converged. *)
Lemma optimize_single_failure {W} (C : Collaborators W) (gid : Z)
  (s s1 : machine W) :
  (optimization_method_ (schema s) = GRADIENT_BASED /\
   update_fast W C gid s = (Normal tt, s1)) \/
  (optimization_method_ (schema s) = SIMPLEX /\
   update_robust W C gid s = (Normal tt, s1)) ->
  corr_status (vars s1) <> CORRELATION_SUCCESSFUL ->
  optimize C gid s
  = (Return_ Exit_failed_step,
     {| schema := record_failed_step gid (corr_status (vars s1))
                    (num_iterations (vars s1)) (schema s1);
        vars := vars s1; world := world s1; calls := calls s1 |}).
Proof.
  intros [[Hm Hu]|[Hm Hu]] Hst; unfold optimize;
    rewrite bind_eq; unfold get_schema at 1; cbv beta iota; rewrite Hm;
    decide_tests; run_with Hu;
    rewrite bind_eq; unfold get_vars at 1; cbv beta iota;
    decide_tests; reflexivity.
Qed.

Lemma optimize_retry_failure {W} (C : Collaborators W) (gid : Z)
  (s s1 s2 s3 : machine W) :
  (optimization_method_ (schema s) = GRADIENT_BASED_THEN_SIMPLEX /\
   update_fast W C gid s = (Normal tt, s1) /\
   update_robust W C gid s2 = (Normal tt, s3)) \/
  (optimization_method_ (schema s) = SIMPLEX_THEN_GRADIENT_BASED /\
   update_robust W C gid s = (Normal tt, s1) /\
   update_fast W C gid s2 = (Normal tt, s3)) ->
  corr_status (vars s1) <> CORRELATION_SUCCESSFUL ->
  reinitialize C gid s1 = (Normal tt, s2) ->
  corr_status (vars s3) <> CORRELATION_SUCCESSFUL ->
  optimize C gid s
  = (Return_ Exit_failed_step,
     {| schema := record_failed_step gid (corr_status (vars s3))
                    (num_iterations (vars s3)) (schema s3);
        vars := vars s3; world := world s3; calls := calls s3 |}).
Proof.
  intros [(Hm & Hu & Hu2)|(Hm & Hu & Hu2)] Hst Hr Hst3; unfold optimize;
    rewrite bind_eq; unfold get_schema at 1; cbv beta iota; rewrite Hm;
    decide_tests; run_with Hu;
    rewrite bind_eq; unfold get_vars at 1; cbv beta iota;
    decide_tests; run_with Hr; run_with Hu2;
    unfold fail_unless_correlated;
    rewrite bind_eq; unfold get_vars at 1; cbv beta iota;
    decide_tests; reflexivity.
Qed.

Lemma failed_pass_other_points (gid : Z) (S S' : Schema) :
  failed_pass gid S S' ->
  forall g f, g <> gid -> fields_ S' g f = fields_ S g f.
Proof.
  intros (st & n & _ & [H|(_ & _ & H)]) g f Hg; rewrite H.
  - rewrite record_failed_step_field.
    rewrite bool_decide_eq_false_2 by exact Hg. reflexivity.
  - rewrite record_failed_step_field, add_phase_correlation_field.
    rewrite bool_decide_eq_false_2 by exact Hg. reflexivity.
Qed.

Lemma recorded_failure_intro {W} (C : Collaborators W) (gid : Z) (S : Schema)
  (w : W) (s' : machine W) (st : Status_Flag) :
  generic_correlation_routine C gid (start S w)
  = (Return_ Exit_failed_step, s') ->
  fields_ (schema s') gid STATUS_FLAG = Flag st ->
  recorded_failure gid S (generic_correlation_routine C gid (start S w)) st.
Proof.
  intros Hrun Hst. unfold recorded_failure. rewrite Hrun. cbn [fst snd].
  split; [reflexivity|]. split; [exact Hst|].
  apply failed_pass_of_routine in Hrun.
  apply (failed_pass_other_points gid _ _ Hrun).
Qed.

Lemma failed_status_recorded (gid : Z) (st : Status_Flag) (n : Z)
  (S : Schema) :
  fields_ (record_failed_step gid st n S) gid STATUS_FLAG = Flag st.
Proof.
  rewrite record_failed_step_field.
  rewrite bool_decide_eq_true_2 by reflexivity. reflexivity.
Qed.

Lemma routine_after_optimize_failure {W} (C : Collaborators W) (gid : Z)
  (S : Schema) (w : W) (hp : bool) (s s' : machine W) :
  before_optimize C gid (start S w) = (Normal hp, s) ->
  optimize C gid s = (Return_ Exit_failed_step, s') ->
  generic_correlation_routine C gid (start S w)
  = (Return_ Exit_failed_step, s').
Proof.
  intros H0 H1. unfold generic_correlation_routine.
  run_with H0. run_with H1. reflexivity.
Qed.

(** C2 (as amended): in the pass over a point,
    - a [std::logic_error] thrown by the initial guess is caught: the
      routine returns with the status [INITIALIZE_FAILED_BY_EXCEPTION]
      recorded for the point;
    - a [std::logic_error] thrown by an optimizer update is caught and
      turned into the status [CORRELATION_FAILED_BY_EXCEPTION] of that
      attempt; when this is the only attempt of the method, or the second
      attempt of a two-stage method, the routine returns with that status
      recorded for the point;
    in each case no field of another point has changed, and after a
    routine that returns the loop over the points goes on with the next
    point. *)
Theorem logic_errors_are_recorded_as_statuses {W} (C : Collaborators W)
  (gid : Z) (S : Schema) (w : W) :
  (forall hp g s1 s2,
      before_initial_guess C gid (start S w) = (Normal (hp, g), s1) ->
      initial_guess C gid hp g s1 = (Throw std_logic_error, s2) ->
      recorded_failure gid S (generic_correlation_routine C gid (start S w))
        INITIALIZE_FAILED_BY_EXCEPTION) /\
  (forall s d n w',
      computeUpdateFast W C gid (deformation (vars s)) (num_iterations (vars s))
        (world s) = (Throws std_logic_error, d, n, w') ->
      exists s1,
        update_fast W C gid s = (Normal tt, s1) /\
        corr_status (vars s1) = CORRELATION_FAILED_BY_EXCEPTION) /\
  (forall s d n w',
      computeUpdateRobust W C gid (deformation (vars s))
        (num_iterations (vars s)) (world s)
      = (Throws std_logic_error, d, n, w') ->
      exists s1,
        update_robust W C gid s = (Normal tt, s1) /\
        corr_status (vars s1) = CORRELATION_FAILED_BY_EXCEPTION) /\
  (forall hp s d n w',
      before_optimize C gid (start S w) = (Normal hp, s) ->
      (optimization_method_ S = GRADIENT_BASED /\
       computeUpdateFast W C gid (deformation (vars s))
         (num_iterations (vars s)) (world s)
       = (Throws std_logic_error, d, n, w')) \/
      (optimization_method_ S = SIMPLEX /\
       computeUpdateRobust W C gid (deformation (vars s))
         (num_iterations (vars s)) (world s)
       = (Throws std_logic_error, d, n, w')) ->
      recorded_failure gid S (generic_correlation_routine C gid (start S w))
        CORRELATION_FAILED_BY_EXCEPTION) /\
  (forall hp s s1 s2 d n w',
      before_optimize C gid (start S w) = (Normal hp, s) ->
      (optimization_method_ S = GRADIENT_BASED_THEN_SIMPLEX /\
       update_fast W C gid s = (Normal tt, s1) /\
       computeUpdateRobust W C gid (deformation (vars s2))
         (num_iterations (vars s2)) (world s2)
       = (Throws std_logic_error, d, n, w')) \/
      (optimization_method_ S = SIMPLEX_THEN_GRADIENT_BASED /\
       update_robust W C gid s = (Normal tt, s1) /\
       computeUpdateFast W C gid (deformation (vars s2))
         (num_iterations (vars s2)) (world s2)
       = (Throws std_logic_error, d, n, w')) ->
      corr_status (vars s1) <> CORRELATION_SUCCESSFUL ->
      reinitialize C gid s1 = (Normal tt, s2) ->
      recorded_failure gid S (generic_correlation_routine C gid (start S w))
        CORRELATION_FAILED_BY_EXCEPTION) /\
  (forall x s' rest,
      generic_correlation_routine C gid (start S w) = (Return_ x, s') ->
      correlate_subsets C (gid :: rest) (start S w)
      = correlate_subsets C rest s').
Proof.
  split; [|split; [|split; [|split; [|split]]]].
  - intros hp g s1 s2 H0 H1.
    destruct (initial_guess_throws C gid hp g _ s1 s2 H1) as [Hs Hn].
    eapply recorded_failure_intro.
    + unfold generic_correlation_routine, before_optimize.
      run_with H0. rewrite ?bind_eq.
      unfold initial_guess_stage, try_catch_logic_error. rewrite H1.
      cbv beta iota. unfold_monad. reflexivity.
    + apply failed_status_recorded.
  - intros s d n w' H. eexists. split; [apply update_fast_catches, H|].
    reflexivity.
  - intros s d n w' H. eexists. split; [apply update_robust_catches, H|].
    reflexivity.
  - intros hp s d n w' H0 Hcase.
    assert (Hsame : optimization_method_ (schema s) = optimization_method_ S).
    { apply before_optimize_keeps in H0. cbn in H0. rewrite H0. reflexivity. }
    destruct Hcase as [[Hm H]|[Hm H]].
    + eapply recorded_failure_intro.
      * apply (routine_after_optimize_failure C gid S w hp s _ H0).
        apply optimize_single_failure.
        -- left. split; [congruence|]. apply update_fast_catches, H.
        -- cbn. discriminate.
      * apply failed_status_recorded.
    + eapply recorded_failure_intro.
      * apply (routine_after_optimize_failure C gid S w hp s _ H0).
        apply optimize_single_failure.
        -- right. split; [congruence|]. apply update_robust_catches, H.
        -- cbn. discriminate.
      * apply failed_status_recorded.
  - intros hp s s1 s2 d n w' H0 Hcase Hst Hr.
    assert (Hsame : optimization_method_ (schema s) = optimization_method_ S).
    { apply before_optimize_keeps in H0. cbn in H0. rewrite H0. reflexivity. }
    destruct Hcase as [(Hm & Hu & H)|(Hm & Hu & H)].
    + eapply recorded_failure_intro.
      * apply (routine_after_optimize_failure C gid S w hp s _ H0).
        apply (optimize_retry_failure C gid s s1 s2).
        -- left. split; [congruence|]. split; [exact Hu|].
           apply update_robust_catches, H.
        -- exact Hst.
        -- exact Hr.
        -- cbn. discriminate.
      * apply failed_status_recorded.
    + eapply recorded_failure_intro.
      * apply (routine_after_optimize_failure C gid S w hp s _ H0).
        apply (optimize_retry_failure C gid s s1 s2).
        -- right. split; [congruence|]. split; [exact Hu|].
           apply update_fast_catches, H.
        -- exact Hst.
        -- exact Hr.
        -- cbn. discriminate.
      * apply failed_status_recorded.
  - intros x s' rest H. cbn [correlate_subsets]. rewrite H. reflexivity.
Qed.

Lemma logic_errors_are_recorded_as_statuses_witness :
  let C := scenario_collaborators zero (Returns INITIALIZE_SUCCESSFUL)
             (Throws std_logic_error) (Returns CORRELATION_SUCCESSFUL) zero in
  let S := scenario_schema USE_FIELD_VALUES GRADIENT_BASED minus_one
             minus_one zero ∅ in
  recorded_failure 0 S (generic_correlation_routine C 0 (start S tt))
    CORRELATION_FAILED_BY_EXCEPTION.
Proof.
  intros C S.
  pose (s := snd (before_optimize C 0 (start S tt))).
  apply (proj1 (proj2 (proj2 (proj2
           (logic_errors_are_recorded_as_statuses C 0 S tt))))
           false s (deformation (vars s)) (num_iterations (vars s) + 1) tt).
  - vm_compute. reflexivity.
  - left. split; [reflexivity|]. vm_compute. reflexivity.
Defined.

(** C2 (counterexample): an exception of another class thrown by the fast
    update leaves the routine, and the loop over the points 0 and 1 ends
    with it before point 1 is processed. *)
Lemma other_exceptions_leave_the_pass :
  let C := scenario_collaborators zero (Returns INITIALIZE_SUCCESSFUL)
             (Throws std_runtime_error) (Returns CORRELATION_SUCCESSFUL) zero in
  let S := scenario_schema USE_FIELD_VALUES GRADIENT_BASED minus_one
             minus_one zero ∅ in
  fst (generic_correlation_routine C 0 (start S tt)) = Throw std_runtime_error /\
  fst (correlate_subsets C [0; 1] (start S tt)) = Throw std_runtime_error /\
  calls (snd (correlate_subsets C [0; 1] (start S tt)))
  = [Call_initialize_from_previous_frame; Call_computeUpdateFast].
Proof. intros C S. repeat split; vm_compute; reflexivity. Qed.

(** The recomputation of the initial guess before the second attempt is
    outside the handlers.  Here the first guess comes from the path file,
    the fast update fails, and the objective's guess from the previous
    frame throws. *)
Remark recomputed_guess_is_outside_the_handlers :
  let C := scenario_collaborators zero (Throws std_logic_error)
             (Returns CORRELATION_FAILED) (Returns CORRELATION_SUCCESSFUL)
             zero in
  let S := scenario_schema USE_FIELD_VALUES GRADIENT_BASED_THEN_SIMPLEX
             minus_one minus_one zero {[ 0 := "path.txt"%string ]} in
  let r := generic_correlation_routine C 0 (start S tt) in
  fst r = Throw std_logic_error /\
  calls (snd r)
  = [Call_new_Path_Initializer; Call_initial_guess; Call_computeUpdateFast;
     Call_initialize_from_previous_frame].
Proof. intros C S r. split; vm_compute; reflexivity. Qed.

(** The status of the recomputed guess is not tested before the second
    attempt: when it is a failed initialization and the robust update
    converges, the pass is committed with that status. *)
Remark recomputed_guess_status_is_not_tested :
  let C := scenario_collaborators zero (Returns INITIALIZE_FAILED)
             (Returns CORRELATION_FAILED) (Returns CORRELATION_SUCCESSFUL)
             zero in
  let S := scenario_schema USE_FIELD_VALUES GRADIENT_BASED_THEN_SIMPLEX
             minus_one minus_one zero {[ 0 := "path.txt"%string ]} in
  let r := generic_correlation_routine C 0 (start S tt) in
  fst r = Normal tt /\
  fields_ (schema (snd r)) 0 STATUS_FLAG = Flag INITIALIZE_FAILED /\
  fields_ (schema (snd r)) 0 ITERATIONS = Count 1.
Proof. intros C S r. repeat split; vm_compute; reflexivity. Qed.
